(** * formix: the form-state engine, embedded in Rocq

    The development follows the sources:
    - [src/index.tsx]: the helpers [createUndoRedoManager], [get], [set],
      [getUpdatedValue] and [getInitialState];
    - the engine module ([createForm], [useField], [useArrayField]) that
      imports those helpers.

    JavaScript values live in a store: objects and arrays are reached by
    reference, so two cells that hold the same reference see each other's
    writes.  Numbers are the integers, strings are byte strings; the source
    computes in doubles, which agree with the integers on the safe ones
    (below 2^53 in absolute value).  Objects are modelled by their own data
    properties; what the built-in prototypes supply is a parameter of the
    model.  Where the embedding does not cover
    what JavaScript does, the result is [Unsupported], never a made-up value.

    Asynchronous operations are run one at a time, each until everything it
    started has settled; the status an observer would see while an operation
    is suspended is kept in a log. *)

From Stdlib Require Import ZArith Lia Ascii String.
From stdpp Require Import base option list gmap strings pretty fin_maps.

Open Scope Z_scope.

(** ** Values and the store *)

Module Js.

Definition loc := nat.

Inductive value :=
  | VUndefined
  | VNull
  | VBool (b : bool)
  | VNumber (n : Z)
  | VString (s : string)
  | VRef (l : loc).
Arguments VRef l%_nat.

(** An array keeps its elements ([None] is a hole) and, like every object,
    named properties. *)
Inductive object :=
  | Obj (props : gmap string value)
  | Arr (elems : list (option value)) (props : gmap string value).

Definition heap := list object.

Inductive exn :=
  | TypeError
  | Rejected (reason : value).

Inductive outcome (A : Type) :=
  | Ok (a : A)
  | Throw (e : exn)
  | Unsupported.
Arguments Ok {A} a.
Arguments Throw {A} e.
Arguments Unsupported {A}.

(** Computations over a state [S] that may throw. *)
Definition M (S A : Type) := S -> outcome A * S.

Definition ret {S A} (a : A) : M S A := fun s => (Ok a, s).

Definition bind {S A B} (m : M S A) (k : A -> M S B) : M S B :=
  fun s =>
    match m s with
    | (Ok a, s') => k a s'
    | (Throw e, s') => (Throw e, s')
    | (Unsupported, s') => (Unsupported, s')
    end.

Definition unsupported {S A} : M S A := fun s => (Unsupported, s).
Definition gets {S A} (f : S -> A) : M S A := fun s => (Ok (f s), s).
Definition modify {S} (f : S -> S) : M S unit := fun s => (Ok tt, f s).

(** [try { body } finally { fin }]: [fin] runs on every exit of [body]; the
    completion of [body] is kept unless [fin] itself fails. *)
Definition try_finally {S A} (body : M S A) (fin : M S unit) : M S A :=
  fun s =>
    match body s with
    | (r, s1) =>
        match fin s1 with
        | (Ok _, s2) => (r, s2)
        | (Throw e, s2) => (Throw e, s2)
        | (Unsupported, s2) => (Unsupported, s2)
        end
    end.

(** A promise that nobody awaits: its effects happen, its rejection is not
    delivered to the caller. *)
Definition detach {S A} (m : M S A) : M S unit :=
  fun s =>
    match m s with
    | (Unsupported, s') => (Unsupported, s')
    | (_, s') => (Ok tt, s')
    end.

Declare Scope js_scope.
Delimit Scope js_scope with js.
Notation "x <- m ;; k" := (bind m (fun x => k))
  (at level 100, m at next level, right associativity) : js_scope.
Notation "m ;;; k" := (bind m (fun _ => k))
  (at level 100, right associativity) : js_scope.

(** Truthiness, as in [if (x)] and [!x]. *)
Definition truthy (v : value) : bool :=
  match v with
  | VUndefined | VNull => false
  | VBool b => b
  | VNumber n => negb (n =? 0)
  | VString s => negb (String.eqb s EmptyString)
  | VRef _ => true
  end.

Definition value_eqb (a b : value) : bool :=
  match a, b with
  | VUndefined, VUndefined | VNull, VNull => true
  | VBool x, VBool y => Bool.eqb x y
  | VNumber x, VNumber y => x =? y
  | VString x, VString y => String.eqb x y
  | VRef x, VRef y => Nat.eqb x y
  | _, _ => false
  end.

(** *** Keys *)

Definition is_digit (c : ascii) : bool :=
  let n := nat_of_ascii c in (48 <=? n)%nat && (n <=? 57)%nat.

Fixpoint all_digits (s : string) : bool :=
  match s with
  | EmptyString => true
  | String c s' => is_digit c && all_digits s'
  end.

(** The test [/^\d+$/]. *)
Definition digits_only (key : string) : bool :=
  negb (String.eqb key EmptyString) && all_digits key.

Fixpoint parse_digits (acc : N) (s : string) : N :=
  match s with
  | EmptyString => acc
  | String c s' =>
      parse_digits (10 * acc + N.of_nat (nat_of_ascii c - 48))%N s'
  end.

(** [parseInt(key, 10)] on a string of digits. *)
Definition parseInt (key : string) : N := parse_digits 0%N key.

Definition leading_zero (key : string) : bool :=
  match key with
  | String "0"%char (String _ _) => true
  | _ => false
  end.

Definition max_index : N := 4294967295%N.

(** A string is an array index when it is the canonical decimal form of a
    number below [2^32 - 1]. *)
Definition array_index (key : string) : option nat :=
  if digits_only key && negb (leading_zero key) && (parseInt key <? max_index)%N
  then Some (N.to_nat (parseInt key))
  else None.

(** *** Property access *)

(** Element [n] of an array; a hole or a position past the end reads as
    [undefined] (no built-in prototype has properties named by an index). *)
Definition read_elem (elems : list (option value)) (n : nat) : value :=
  match elems !! n with
  | Some (Some v) => v
  | _ => VUndefined
  end.

(** The built-in prototypes are not part of the sources: [inherited k key]
    tells whether a value of kind [k] finds [key] on its prototype chain
    (a method such as [toString], say).  What such a lookup returns is not
    modelled. *)
Inductive kind := KObject | KArray | KString | KNumber | KBoolean.

Definition prototypes := kind -> string -> bool.

Section Realm.
Variable inherited : prototypes.

(** A key that the value does not own: [undefined], unless the prototype
    chain supplies it. *)
Definition absent (k : kind) (key : string) : outcome value :=
  if inherited k key || String.eqb key "__proto__" then Unsupported
  else Ok VUndefined.

(** [v[key]] with a string key.  The characters and the length of a string
    are counted in UTF-16 units, which byte strings do not give. *)
Definition get_prop (h : heap) (v : value) (key : string) : outcome value :=
  match v with
  | VUndefined | VNull => Throw TypeError
  | VBool _ => absent KBoolean key
  | VNumber _ => absent KNumber key
  | VString _ =>
      if bool_decide (is_Some (array_index key)) || String.eqb key "length"
      then Unsupported
      else absent KString key
  | VRef l =>
      match h !! l with
      | None => Unsupported
      | Some (Obj props) =>
          match props !! key with
          | Some x => Ok x
          | None => absent KObject key
          end
      | Some (Arr elems props) =>
          match array_index key with
          | Some n => Ok (read_elem elems n)
          | None =>
              if String.eqb key "length"
              then Ok (VNumber (Z.of_nat (length elems)))
              else match props !! key with
                   | Some x => Ok x
                   | None => absent KArray key
                   end
          end
      end
  end.

End Realm.

Definition isArray (h : heap) (v : value) : bool :=
  match v with
  | VRef l => match h !! l with Some (Arr _ _) => true | _ => false end
  | _ => false
  end.

(** [arr[n]] with a number that [parseInt] produced. *)
Definition get_index (h : heap) (v : value) (n : N) : outcome value :=
  match v with
  | VRef l =>
      match h !! l with
      | Some (Arr elems _) =>
          if (n <? max_index)%N then Ok (read_elem elems (N.to_nat n))
          else Unsupported
      | _ => Unsupported
      end
  | _ => Unsupported
  end.

(** Writing element [n] of an array: inside, the element is replaced; past
    the end, the array grows and the gap is left as holes. *)
Definition write_elem (elems : list (option value)) (n : nat) (x : value)
  : list (option value) :=
  if (n <? length elems)%nat then <[n := Some x]> elems
  else elems ++ replicate (n - length elems) None ++ [Some x].

(** [target[key] = x] in strict code (the sources are ES modules). *)
Definition set_prop (h : heap) (target : value) (key : string) (x : value)
  : outcome heap :=
  match target with
  | VRef l =>
      match h !! l with
      | None => Unsupported
      | Some (Obj props) =>
          if String.eqb key "__proto__" then Unsupported
          else Ok (<[l := Obj (<[key := x]> props)]> h)
      | Some (Arr elems props) =>
          match array_index key with
          | Some n => Ok (<[l := Arr (write_elem elems n x) props]> h)
          | None =>
              if String.eqb key "length" || String.eqb key "__proto__"
              then Unsupported
              else Ok (<[l := Arr elems (<[key := x]> props)]> h)
          end
      end
  | _ => Throw TypeError
  end.

Definition alloc (o : object) : M heap value :=
  fun h => (Ok (VRef (length h)), h ++ [o]).

End Js.

(** ** The path resolver ([get] and [set] of the helpers) *)

Module Path.
Import Js.

Section Realm.
Variable inherited : prototypes.

(** [path.split('.')]: never empty, the empty path splits into one empty
    segment. *)
Fixpoint split (path : string) : list string :=
  match path with
  | EmptyString => [EmptyString]
  | String c rest =>
      if Ascii.eqb c "."%char then EmptyString :: split rest
      else match split rest with
           | seg :: segs => String c seg :: segs
           | [] => [String c EmptyString]
           end
  end.

(** One turn of the loop of [get]: arrays are indexed through [parseInt]
    when the segment is made of digits, everything else by the segment. *)
Definition get_step (h : heap) (result : value) (key : string)
  : outcome value :=
  if isArray h result && digits_only key
  then get_index h result (parseInt key)
  else get_prop inherited h result key.

Fixpoint get_loop (h : heap) (result : value) (keys : list string)
  : outcome value :=
  match keys with
  | [] => Ok result
  | key :: keys' =>
      match get_step h result key with
      | Ok r => get_loop h r keys'
      | Throw e => Throw e
      | Unsupported => Unsupported
      end
  end.

Definition get (h : heap) (obj : value) (path : string) : outcome value :=
  get_loop h obj (split path).

(** [keys.reduce((acc, key) => acc[key], obj)]. *)
Fixpoint reduce (h : heap) (acc : value) (keys : list string)
  : outcome value :=
  match keys with
  | [] => Ok acc
  | key :: keys' =>
      match get_prop inherited h acc key with
      | Ok r => reduce h r keys'
      | Throw e => Throw e
      | Unsupported => Unsupported
      end
  end.

(** [set] assigns in place: the result is the store after the assignment,
    the returned root is [obj] itself. *)
Definition set (h : heap) (obj : value) (path : string) (x : value)
  : outcome (value * heap) :=
  if String.eqb path EmptyString then Ok (obj, h)
  else
    let keys := split path in
    let lastKey := List.last keys EmptyString in
    match reduce h obj (removelast keys) with
    | Ok target =>
        match set_prop h target lastKey x with
        | Ok h' => Ok (obj, h')
        | Throw e => Throw e
        | Unsupported => Unsupported
        end
    | Throw e => Throw e
    | Unsupported => Unsupported
    end.

End Realm.

End Path.

(** ** The history manager ([createUndoRedoManager]) *)

Module UndoRedo.
Import Js.

Record UndoRedoState := {
  history : list value;
  currentIndex : Z;
}.

(** The closure: the mutable [state] and the captured [maxHistorySize]. *)
Record manager := {
  state : UndoRedoState;
  maxHistorySize : Z;
}.

(** A relative index of [Array.prototype.slice]. *)
Definition relative (len k : Z) : Z :=
  if k <? 0 then Z.max (len + k) 0 else Z.min k len.

(** [l.slice(start, end)]; [None] stands for an omitted [end]. *)
Definition slice {A} (l : list A) (start : Z) (end_ : option Z) : list A :=
  let len := Z.of_nat (length l) in
  let from := relative len start in
  let to := match end_ with Some e => relative len e | None => len end in
  take (Z.to_nat (to - from)) (drop (Z.to_nat from) l).

(** [history[i]]: [undefined] outside the array. *)
Definition entry (history : list value) (i : Z) : value :=
  if i <? 0 then VUndefined
  else match history !! Z.to_nat i with
       | Some v => v
       | None => VUndefined
       end.

Definition default_steps (steps : option Z) : Z :=
  match steps with Some n => n | None => 1 end.

Definition createUndoRedoManager (initialState : value)
    (maxHistorySize : option Z) : manager :=
  {| state := {| history := [initialState]; currentIndex := 0 |};
     maxHistorySize :=
       match maxHistorySize with Some n => n | None => 350 end |}.

Definition setState (newState : value) (m : manager) : manager :=
  let st := state m in
  let max := maxHistorySize m in
  {| state :=
       {| history :=
            slice (slice (history st) 0 (Some (currentIndex st + 1))
                     ++ [newState])
                  (- max) None;
          currentIndex := Z.min (currentIndex st + 1) (max - 1) |};
     maxHistorySize := max |}.

Definition undo (steps : option Z) (m : manager) : value * manager :=
  let st := state m in
  let i := Z.max 0 (currentIndex st - default_steps steps) in
  (entry (history st) i,
   {| state := {| history := history st; currentIndex := i |};
      maxHistorySize := maxHistorySize m |}).

Definition redo (steps : option Z) (m : manager) : value * manager :=
  let st := state m in
  let i := Z.min (Z.of_nat (length (history st)) - 1)
                 (currentIndex st + default_steps steps) in
  (entry (history st) i,
   {| state := {| history := history st; currentIndex := i |};
      maxHistorySize := maxHistorySize m |}).

Definition canUndo (steps : option Z) (m : manager) : bool :=
  default_steps steps <=? currentIndex (state m).

Definition canRedo (steps : option Z) (m : manager) : bool :=
  currentIndex (state m) + default_steps steps
    <? Z.of_nat (length (history (state m))).

Definition getCurrentState (m : manager) : value :=
  entry (history (state m)) (currentIndex (state m)).

End UndoRedo.

(** ** The form engine ([createForm]) *)

Module Form.
Import Js.
Local Open Scope js_scope.

Record FormErrors := {
  fieldErrors : gmap string (list string);
  formErrors : list string;
}.

(** The result of [schema.safeParseAsync]; a failure carries the flattened
    error of the schema library. *)
Inductive SafeParseResult :=
  | ParseSuccess (data : value)
  | ParseFailure (flattened : FormErrors).

(** [Update<T>]: a value, or a synchronous or asynchronous function of the
    previous value.  Callbacks of the application work on the store. *)
Inductive Update :=
  | UValue (v : value)
  | UFunction (f : value -> M heap value).

(** [Initializer<T>]: a value, or a producer of one. *)
Inductive Initializer :=
  | IValue (v : value)
  | IFunction (f : M heap value).

Module Props.
Record CreateFormProps := {
  schema : heap -> value -> outcome SafeParseResult;
  initialState : Initializer;
  onSubmit : value -> M heap unit;
  undoLimit : option Z;
}.
End Props.
Import Props.

(** The cells of one engine together with the store they point into.
    [fieldMetas] and its setters are left out here and added by [Meta].
    Two logs make the engine observable from outside: [submitted] lists the
    arguments the submit handler was invoked with, [snapshots] the form
    status at each point where an operation was suspended on an [await]
    (oldest first in both). *)
Record engine := {
  store : heap;
  state : value;
  undoRedoManager : option UndoRedo.manager;
  errors : FormErrors;
  formStatus : gmap string bool;
  fieldStatuses : gmap string (gmap string bool);
  initialState : value;
  submitted : list value;
  snapshots : list (gmap string bool);
}.

Definition on_store {A} (m : M heap A) : M engine A :=
  fun e =>
    match m (store e) with
    | (r, h) =>
        (r, {| store := h; state := state e;
               undoRedoManager := undoRedoManager e; errors := errors e;
               formStatus := formStatus e; fieldStatuses := fieldStatuses e;
               initialState := initialState e; submitted := submitted e;
               snapshots := snapshots e |})
    end.

Definition setStateInternal (v : value) : M engine unit :=
  modify (fun e =>
    {| store := store e; state := v;
       undoRedoManager := undoRedoManager e; errors := errors e;
       formStatus := formStatus e; fieldStatuses := fieldStatuses e;
       initialState := initialState e; submitted := submitted e;
       snapshots := snapshots e |}).

Definition setUndoRedoManager (m : option UndoRedo.manager) : M engine unit :=
  modify (fun e =>
    {| store := store e; state := state e;
       undoRedoManager := m; errors := errors e;
       formStatus := formStatus e; fieldStatuses := fieldStatuses e;
       initialState := initialState e; submitted := submitted e;
       snapshots := snapshots e |}).

Definition setErrors (errs : FormErrors) : M engine unit :=
  modify (fun e =>
    {| store := store e; state := state e;
       undoRedoManager := undoRedoManager e; errors := errs;
       formStatus := formStatus e; fieldStatuses := fieldStatuses e;
       initialState := initialState e; submitted := submitted e;
       snapshots := snapshots e |}).

(** [setFormStatus(prev => ({ ...prev, [key]: b }))]. *)
Definition setFormStatus (key : string) (b : bool) : M engine unit :=
  modify (fun e =>
    {| store := store e; state := state e;
       undoRedoManager := undoRedoManager e; errors := errors e;
       formStatus := <[key := b]> (formStatus e);
       fieldStatuses := fieldStatuses e;
       initialState := initialState e; submitted := submitted e;
       snapshots := snapshots e |}).

Definition setFieldStatuses
    (f : gmap string (gmap string bool) -> gmap string (gmap string bool))
  : M engine unit :=
  modify (fun e =>
    {| store := store e; state := state e;
       undoRedoManager := undoRedoManager e; errors := errors e;
       formStatus := formStatus e; fieldStatuses := f (fieldStatuses e);
       initialState := initialState e; submitted := submitted e;
       snapshots := snapshots e |}).

Definition assign_initialState (v : value) : M engine unit :=
  modify (fun e =>
    {| store := store e; state := state e;
       undoRedoManager := undoRedoManager e; errors := errors e;
       formStatus := formStatus e; fieldStatuses := fieldStatuses e;
       initialState := v; submitted := submitted e;
       snapshots := snapshots e |}).

Definition log_submission (data : value) : M engine unit :=
  modify (fun e =>
    {| store := store e; state := state e;
       undoRedoManager := undoRedoManager e; errors := errors e;
       formStatus := formStatus e; fieldStatuses := fieldStatuses e;
       initialState := initialState e; submitted := submitted e ++ [data];
       snapshots := snapshots e |}).

(** The operation is suspended: whoever runs meanwhile sees this status. *)
Definition suspend : M engine unit :=
  modify (fun e =>
    {| store := store e; state := state e;
       undoRedoManager := undoRedoManager e; errors := errors e;
       formStatus := formStatus e; fieldStatuses := fieldStatuses e;
       initialState := initialState e; submitted := submitted e;
       snapshots := snapshots e ++ [formStatus e] |}).

(** [await m]: the caller is suspended until [m] has settled. *)
Definition await {A} (m : M engine A) : M engine A := suspend ;;; m.

Definition getUpdatedValue (prev : value) (update : Update) : M heap value :=
  match update with
  | UFunction f => f prev
  | UValue v => ret v
  end.

(** Modelled from the spec: [getInitialValue] of the helpers module is not
    in the sources; an initializer is "a value, a synchronous zero-argument
    producer, or an asynchronous zero-argument producer" (section 6).
    [getInitialState] of [src/index.tsx] has the same body. *)
Definition getInitialValue (init : Initializer) : M heap value :=
  match init with
  | IFunction f => f
  | IValue v => ret v
  end.

Definition blank (h : heap) : engine :=
  {| store := h; state := VNull; undoRedoManager := None;
     errors := {| fieldErrors := ∅; formErrors := [] |};
     formStatus :=
       {[ "initializing" := false; "submitting" := false;
          "validating" := false; "settingState" := false;
          "settingMeta" := false ]};
     fieldStatuses := ∅; initialState := VNull;
     submitted := []; snapshots := [] |}.

Section createForm.
Variable inherited : prototypes.
Variable props : CreateFormProps.

Definition revalidate : M engine SafeParseResult :=
  setFormStatus "validating" true ;;;
  validationResult <-
    await (fun e => (schema props (store e) (state e), e)) ;;
  setFormStatus "validating" false ;;;
  ret validationResult.

Definition report (validationResult : SafeParseResult) : M engine unit :=
  match validationResult with
  | ParseFailure flattened => setErrors flattened
  | ParseSuccess _ => ret tt
  end.

Definition initializeState : M engine unit :=
  setFormStatus "initializing" true ;;;
  try_finally
    (result <- await (on_store (getInitialValue (Props.initialState props))) ;;
     assign_initialState result ;;;
     setStateInternal result ;;;
     setUndoRedoManager
       (Some (UndoRedo.createUndoRedoManager result (undoLimit props))) ;;;
     validationResult <- await revalidate ;;
     report validationResult)
    (setFormStatus "initializing" false).

(** [undoRedoManager()?.setState(next)]. *)
Definition record (next : value) : M engine unit :=
  m <- gets undoRedoManager ;;
  setUndoRedoManager (option_map (UndoRedo.setState next) m).

Definition setState (update : Update) : M engine unit :=
  try_finally
    (setFormStatus "isSettingState" true ;;;
     current <- gets state ;;
     next <- await (on_store (getUpdatedValue current update)) ;;
     setStateInternal next ;;;
     record next ;;;
     validationResult <- await revalidate ;;
     report validationResult)
    (setFormStatus "isSettingState" false).

Definition submit : M engine unit :=
  validationResult <- await revalidate ;;
  match validationResult with
  | ParseFailure _ => ret tt
  | ParseSuccess data =>
      try_finally
        (setFormStatus "submitting" true ;;;
         log_submission data ;;;
         await (on_store (onSubmit props data)))
        (setFormStatus "submitting" false)
  end.

Definition undo (steps : option Z) : M engine unit :=
  manager <- gets undoRedoManager ;;
  match manager with
  | Some m =>
      let (previousState, m') := UndoRedo.undo steps m in
      setUndoRedoManager (Some m') ;;;
      await (setState (UValue previousState))
  | None => ret tt
  end.

Definition redo (steps : option Z) : M engine unit :=
  manager <- gets undoRedoManager ;;
  match manager with
  | Some m =>
      let (nextState, m') := UndoRedo.redo steps m in
      setUndoRedoManager (Some m') ;;;
      await (setState (UValue nextState))
  | None => ret tt
  end.

Definition canUndo (steps : option Z) (e : engine) : bool :=
  match undoRedoManager e with
  | Some m => UndoRedo.canUndo steps m
  | None => false
  end.

Definition canRedo (steps : option Z) (e : engine) : bool :=
  match undoRedoManager e with
  | Some m => UndoRedo.canRedo steps m
  | None => false
  end.

Definition reset : M engine unit :=
  initialState <-
    await (on_store (getInitialValue (Props.initialState props))) ;;
  await (setState (UValue initialState)).

(** [prev[path] ?? { isSettingMeta: false, isSettingValue: false }], as it
    is spread: the flags of the path; the default when the lookup finds
    nothing; and no flag at all when the record has no entry of that name
    but the prototype chain has one, since what the built-in prototypes
    supply (a method, the prototype itself) is not nullish and has no
    enumerable property of its own. *)
Definition status_of (prev : gmap string (gmap string bool))
    (path : string) : gmap string bool :=
  match prev !! path with
  | Some status => status
  | None =>
      if inherited KObject path || String.eqb path "__proto__" then ∅
      else {[ "isSettingMeta" := false; "isSettingValue" := false ]}
  end.

Definition _setFieldStatus (path key : string) (b : bool) : M engine unit :=
  setFieldStatuses (fun prev =>
    <[path := <[key := b]> (status_of prev path)]> prev).

(** [setState(nextState)] is not awaited here: it starts inside the [try]
    and finishes after the [finally]; the two touch different cells, so the
    order of their writes does not show. *)
Definition setFieldValue (path : string) (update : Update) : M engine unit :=
  try_finally
    (_setFieldStatus path "isSettingValue" true ;;;
     currentState <- gets state ;;
     current <-
       (fun e => (Path.get inherited (store e) currentState path, e)) ;;
     updatedValue <- await (on_store (getUpdatedValue current update)) ;;
     if truthy currentState then
       nextState <-
         on_store (fun h =>
           match Path.set inherited h currentState path updatedValue with
           | Ok (root, h') => (Ok root, h')
           | Throw e => (Throw e, h)
           | Unsupported => (Unsupported, h)
           end) ;;
       detach (setState (UValue nextState))
     else ret tt)
    (_setFieldStatus path "isSettingValue" false).

(** [initializeState()] is started by [createForm] and not awaited. *)
Definition createForm (h : heap) : engine :=
  snd (detach initializeState (blank h)).

End createForm.
End Form.

(** ** Field views ([useField] and [useArrayField]) *)

Module Field.
Import Js Form.
Local Open Scope js_scope.

Section useField.
Variable inherited : prototypes.
Variable props : Props.CreateFormProps.
Variable path : string.

(** The function under the memo [value]: [get(form.state(), path)] on the
    state and the store as they are.  The memo runs it when the view is
    made and when the state signal changes, and keeps the result in
    between; that cache is not modelled, so [value] is what the accessor
    returns where the memo has just run, as on the engine the view is made
    on.  What the state holds at a path after a call is read with
    [Path.get]. *)
Definition value (e : engine) : outcome Js.value :=
  Path.get inherited (store e) (state e) path.

Definition setValue (update : Update) : M engine unit :=
  setFieldValue inherited props path update.

Definition reset : M engine unit :=
  initialValue <-
    (fun e => (Path.get inherited (store e) (initialState e) path, e)) ;;
  if negb (truthy initialValue) then ret tt
  else await (setFieldValue inherited props path (UValue initialValue)).

(** *** Array fields *)

(** [[...prev]]: the elements of an array, holes read as [undefined]. *)
Definition spread (prev : Js.value) : M heap (list Js.value) :=
  fun h =>
    match prev with
    | VRef l =>
        match h !! l with
        | Some (Arr elems _) => (Ok (map (default VUndefined) elems), h)
        | Some (Obj _) => (Throw TypeError, h)
        | None => (Unsupported, h)
        end
    | VString _ => (Unsupported, h)
    | _ => (Throw TypeError, h)
    end.

(** A fresh array holding the given elements. *)
Definition new_array (xs : list Js.value) : M heap Js.value :=
  alloc (Arr (map Some xs) ∅).

(** The callback of [prev.filter((_, i) => i !== _index)], from position
    [i] on; [filter] passes over holes. *)
Fixpoint filter_from (i : Z) (_index : Js.value)
    (elems : list (option Js.value)) : list Js.value :=
  match elems with
  | [] => []
  | None :: rest => filter_from (i + 1) _index rest
  | Some x :: rest =>
      if value_eqb (VNumber i) _index then filter_from (i + 1) _index rest
      else x :: filter_from (i + 1) _index rest
  end.

(** [prev.filter(...)]: only arrays have the method. *)
Definition filter_out (prev _index : Js.value) : M heap Js.value :=
  fun h =>
    match prev with
    | VRef l =>
        match h !! l with
        | Some (Arr elems _) => new_array (filter_from 0 _index elems) h
        | Some (Obj _) => (Throw TypeError, h)
        | None => (Unsupported, h)
        end
    | _ => (Throw TypeError, h)
    end.

(** The integer an argument of [splice] stands for; the conversions of
    strings and objects to numbers are not modelled. *)
Definition to_integer (v : Js.value) : M heap Z :=
  match v with
  | VNumber n => ret n
  | VUndefined | VNull | VBool false => ret 0
  | VBool true => ret 1
  | VString _ | VRef _ => unsupported
  end.

(** [Promise.all([a, b])]: both are started, [a] first; the result is the
    pair of their values, or the failure of the first that failed. *)
Definition all2 {A B} (a : M heap A) (b : M heap B) : M heap (A * B) :=
  fun h =>
    match a h with
    | (ra, h1) =>
        match b h1 with
        | (rb, h2) =>
            (match ra, rb with
             | Ok x, Ok y => Ok (x, y)
             | Ok _, Throw e => Throw e
             | Ok _, Unsupported => Unsupported
             | Throw e, Unsupported => Unsupported
             | Throw e, _ => Throw e
             | Unsupported, _ => Unsupported
             end, h2)
        end
    end.

(** [xs.splice(start, deleteCount, ...items)] on an array without holes:
    the removed elements and the array afterwards. *)
Definition splice (xs : list Js.value) (start deleteCount : Z)
    (items : list Js.value) : list Js.value * list Js.value :=
  let len := Z.of_nat (length xs) in
  let from := UndoRedo.relative len start in
  let count := Z.min (Z.max deleteCount 0) (len - from) in
  (take (Z.to_nat count) (drop (Z.to_nat from) xs),
   take (Z.to_nat from) xs ++ items ++ drop (Z.to_nat (from + count)) xs).

(** The property key a value used as a subscript stands for.  A number is
    written in decimal; the digits are those of the integer for the safe
    integers, and the keys of the other numbers are not modelled. *)
Definition to_key (v : Js.value) : option string :=
  match v with
  | VString s => Some s
  | VNumber n =>
      if Z.abs n <? 2 ^ 53 then Some (pretty n) else None
  | VBool true => Some "true"%string
  | VBool false => Some "false"%string
  | VNull => Some "null"%string
  | VUndefined => Some "undefined"%string
  | VRef _ => None
  end.

Definition read_at (target subscript : Js.value) : M heap Js.value :=
  fun h =>
    match to_key subscript with
    | Some key => (get_prop inherited h target key, h)
    | None => (Unsupported, h)
    end.

Definition write_at (target subscript x : Js.value) : M heap unit :=
  fun h =>
    match to_key subscript with
    | Some key =>
        match set_prop h target key x with
        | Ok h' => (Ok tt, h')
        | Throw e => (Throw e, h)
        | Unsupported => (Unsupported, h)
        end
    | None => (Unsupported, h)
    end.

Definition push (item : Initializer) : M engine unit :=
  await (setValue (UFunction (fun prev =>
    xs <- spread prev ;;
    x <- getInitialValue item ;;
    new_array (xs ++ [x])))).

Definition remove (index : Initializer) : M engine unit :=
  await (setValue (UFunction (fun prev =>
    _index <- getInitialValue index ;;
    filter_out prev _index))).

Definition move (from to : Initializer) : M engine unit :=
  await (setValue (UFunction (fun prev =>
    indices <- all2 (getInitialValue from) (getInitialValue to) ;;
    let (_from, _to) := indices : Js.value * Js.value in
    xs <- spread prev ;;
    start <- to_integer _from ;;
    let (deleted, rest) := splice xs start 1 [] in
    let removed := List.hd VUndefined deleted in
    target <- to_integer _to ;;
    new_array (snd (splice rest target 0 [removed]))))).

Definition insert (index item : Initializer) : M engine unit :=
  await (setValue (UFunction (fun prev =>
    both <- all2 (getInitialValue index) (getInitialValue item) ;;
    let (_index, _item) := both : Js.value * Js.value in
    xs <- spread prev ;;
    start <- to_integer _index ;;
    new_array (snd (splice xs start 0 [_item]))))).

Definition replace (index item : Initializer) : M engine unit :=
  await (setValue (UFunction (fun prev =>
    both <- all2 (getInitialValue index) (getInitialValue item) ;;
    let (_index, _item) := both : Js.value * Js.value in
    xs <- spread prev ;;
    newArray <- new_array xs ;;
    write_at newArray _index _item ;;;
    ret newArray))).

Definition empty : M engine unit :=
  fresh <- on_store (new_array []) ;;
  await (setValue (UValue fresh)).

Definition swap (indexA indexB : Initializer) : M engine unit :=
  await (setValue (UFunction (fun prev =>
    indices <- all2 (getInitialValue indexA) (getInitialValue indexB) ;;
    let (_indexA, _indexB) := indices : Js.value * Js.value in
    xs <- spread prev ;;
    newArray <- new_array xs ;;
    temp <- read_at newArray _indexA ;;
    other <- read_at newArray _indexB ;;
    write_at newArray _indexA other ;;;
    write_at newArray _indexB temp ;;;
    ret newArray))).

End useField.
End Field.

(** ** Reading a value out of the store *)

Module Snapshot.
Import Js.

(** A value with everything reachable from it, as a tree. *)
#[warnings="-register-all"]
Inductive tree :=
  | TUndefined
  | TNull
  | TBool (b : bool)
  | TNumber (n : Z)
  | TString (s : string)
  | TObject (props : list (string * tree))
  | TArray (elems : list (option tree)) (props : list (string * tree))
  | TDeeper.

(** The tree below [v], cut at [TDeeper] when [fuel] levels are used up. *)
Fixpoint snapshot (fuel : nat) (h : heap) (v : value) : tree :=
  match v with
  | VUndefined => TUndefined
  | VNull => TNull
  | VBool b => TBool b
  | VNumber n => TNumber n
  | VString s => TString s
  | VRef l =>
      match fuel with
      | O => TDeeper
      | S fuel' =>
          let below := snapshot fuel' h in
          match h !! l with
          | Some (Obj props) =>
              TObject (map (fun kv => (fst kv, below (snd kv)))
                           (map_to_list props))
          | Some (Arr elems props) =>
              TArray (map (option_map below) elems)
                     (map (fun kv => (fst kv, below (snd kv)))
                          (map_to_list props))
          | None => TDeeper
          end
      end
  end.

End Snapshot.

(** ** Vocabulary of the properties *)

Module Spec.
Import Js.

(** The three mutations of a history manager. *)
Inductive op :=
  | SetState (newState : value)
  | Undo (steps : option Z)
  | Redo (steps : option Z).

Definition apply (m : UndoRedo.manager) (o : op) : UndoRedo.manager :=
  match o with
  | SetState newState => UndoRedo.setState newState m
  | Undo steps => snd (UndoRedo.undo steps m)
  | Redo steps => snd (UndoRedo.redo steps m)
  end.

Definition run (ops : list op) (m : UndoRedo.manager) : UndoRedo.manager :=
  fold_left apply ops m.

(** [0 <= currentIndex < history.length <= maxHistorySize]. *)
Definition bounded (m : UndoRedo.manager) : Prop :=
  0 <= UndoRedo.currentIndex (UndoRedo.state m)
    < Z.of_nat (length (UndoRedo.history (UndoRedo.state m)))
  /\ Z.of_nat (length (UndoRedo.history (UndoRedo.state m)))
       <= UndoRedo.maxHistorySize m.

(** An operation that goes back or forward by a count of steps, that is, by
    a number that is not negative. *)
Definition counted (o : op) : Prop :=
  match o with
  | SetState _ => True
  | Undo steps | Redo steps => 0 <= UndoRedo.default_steps steps
  end.


(** The part of the snapshot log written since the log was [n] long. *)
Definition since (n : nat) (e : Form.engine) : list (gmap string bool) :=
  drop n (Form.snapshots e).

(** *** Paths through a tree *)

(** The containers met when [keys] are read one after the other from [cur],
    the first one being [cur] itself: every value on the way has to be an
    object or an array of the store. *)
Fixpoint walk (inherited : prototypes) (h : heap) (cur : value)
    (keys : list string) : option (list loc) :=
  match cur with
  | VRef l =>
      match keys with
      | [] => match h !! l with Some _ => Some [l] | None => None end
      | key :: keys' =>
          match get_prop inherited h cur key with
          | Ok next => cons l <$> walk inherited h next keys'
          | _ => None
          end
      end
  | _ => None
  end.

(** A segment made of digits that meets an array is an array index in
    canonical form: ["1"], not ["01"]. *)
Definition canonical (h : heap) (l : loc) (key : string) : bool :=
  match h !! l with
  | Some (Arr _ _) =>
      negb (digits_only key) || bool_decide (is_Some (array_index key))
  | _ => true
  end.

Fixpoint all_canonical (h : heap) (locs : list loc) (keys : list string)
  : bool :=
  match locs, keys with
  | l :: locs', key :: keys' => canonical h l key && all_canonical h locs' keys'
  | _, _ => true
  end.

(** A key that can be assigned as plain data: not the [length] of an array
    and not [__proto__]. *)
Definition assignable (h : heap) (l : loc) (key : string) : bool :=
  match h !! l with
  | Some (Obj _) => negb (String.eqb key "__proto__")
  | Some (Arr _ _) =>
      bool_decide (is_Some (array_index key))
      || negb (String.eqb key "length" || String.eqb key "__proto__")
  | None => false
  end.

(** *** Forms used as examples *)

(** The names that every object finds on [Object.prototype].  The table
    serves the examples; the properties hold for any table. *)
Definition object_prototype : list string :=
  ["constructor"; "hasOwnProperty"; "isPrototypeOf"; "propertyIsEnumerable";
   "toLocaleString"; "toString"; "valueOf"; "__defineGetter__";
   "__defineSetter__"; "__lookupGetter__"; "__lookupSetter__";
   "__proto__"]%string.

Definition builtins : prototypes :=
  fun _ key => bool_decide (key ∈ object_prototype).

(** A schema that accepts every state and returns it as the parsed data. *)
Definition accepting : heap -> value -> outcome Form.SafeParseResult :=
  fun _ v => Ok (Form.ParseSuccess v).

Definition ignoring : value -> M heap unit := fun _ => ret tt.

Definition form_of (initial : value) : Form.Props.CreateFormProps :=
  {| Form.Props.schema := accepting;
     Form.Props.initialState := Form.IValue initial;
     Form.Props.onSubmit := ignoring;
     Form.Props.undoLimit := None |}.

(** The store holding [{ name: "John", age: 0 }]. *)
Definition person_store : heap :=
  [Obj {[ "name" := VString "John"; "age" := VNumber 0 ]}].

(** The store holding [{ items: ["item1", "item2", "item3"] }]. *)
Definition items_store : heap :=
  [Obj {[ "items" := VRef 1 ]};
   Arr [Some (VString "item1"); Some (VString "item2");
        Some (VString "item3")] ∅].

(** The store holding [{ items: ["x", "y"] }]. *)
Definition pair_store : heap :=
  [Obj {[ "items" := VRef 1 ]};
   Arr [Some (VString "x"); Some (VString "y")] ∅].

(** The store holding [{ user: null }]. *)
Definition orphan_store : heap := [Obj {[ "user" := VNull ]}].

(** A form on the root object at address 0. *)
Definition form_with (schema : heap -> value -> outcome Form.SafeParseResult)
    (onSubmit : value -> M heap unit) (undoLimit : option Z)
  : Form.Props.CreateFormProps :=
  {| Form.Props.schema := schema;
     Form.Props.initialState := Form.IValue (VRef 0);
     Form.Props.onSubmit := onSubmit;
     Form.Props.undoLimit := undoLimit |}.

(** What the state holds at [path], as a tree, after [operation] has run on
    the engine that [createForm] makes on the store [h]: the result of
    [get(form.state(), path)].  The memo of a field view is not read. *)
Definition state_after (inherited : prototypes)
    (props : Form.Props.CreateFormProps) (h : heap) (path : string)
    (operation : M Form.engine unit) : outcome Snapshot.tree :=
  let e := snd (operation (Form.createForm props h)) in
  match Path.get inherited (Form.store e) (Form.state e) path with
  | Ok v => Ok (Snapshot.snapshot 4 (Form.store e) v)
  | Throw x => Throw x
  | Unsupported => Unsupported
  end.

End Spec.

(** ** Metadata of the fields ([setFieldMetas] and [setFieldMeta]) *)

Module Meta.
Import Js Form.
Local Open Scope js_scope.

(** The engine together with the cell that [Form.engine] leaves out:
    [fieldMetas], the record of the metadata of the fields, an object of
    the store that is replaced by a new one at every change. *)
Record engine := {
  form : Form.engine;
  fieldMetas : value;
}.

Definition on_form {A} (m : M Form.engine A) : M engine A :=
  fun e =>
    match m (form e) with
    | (r, f) => (r, {| form := f; fieldMetas := fieldMetas e |})
    end.

Definition setFieldMetasInternal (v : value) : M engine unit :=
  modify (fun e => {| form := form e; fieldMetas := v |}).

Definition await {A} (m : M engine A) : M engine A := on_form suspend ;;; m.

(** The test of [??]. *)
Definition nullish (v : value) : bool :=
  match v with
  | VUndefined | VNull => true
  | _ => false
  end.

(** [{ ...prev, [path]: next }]: a new object with the own properties of
    [prev] and the property [path]; numbers, booleans, [null] and
    [undefined] spread to nothing.  Spreading an array or a string is not
    modelled. *)
Definition with_meta (path : string) (next prev : value) : M heap value :=
  fun h =>
    match prev with
    | VRef l =>
        match h !! l with
        | Some (Obj props) => alloc (Obj (<[path := next]> props)) h
        | Some (Arr _ _) | None => (Unsupported, h)
        end
    | VString _ => (Unsupported, h)
    | VUndefined | VNull | VBool _ | VNumber _ =>
        alloc (Obj {[ path := next ]}) h
    end.

Section createForm.
Variable inherited : prototypes.
Variable props : Props.CreateFormProps.

(** The object [defaultFieldMetaState] of the module. *)
Variable defaultFieldMetaState : value.

Definition setFieldMetas (update : Update) : M engine unit :=
  try_finally
    (on_form (setFormStatus "isSettingMeta" true) ;;;
     current <- gets fieldMetas ;;
     next <- await (on_form (on_store (getUpdatedValue current update))) ;;
     setFieldMetasInternal next)
    (on_form (setFormStatus "isSettingMeta" false)).

(** [setFieldMetas(prev => ...)] is not awaited here, as [setState] is not
    in [setFieldValue]. *)
Definition setFieldMeta (path : string) (update : Update) : M engine unit :=
  try_finally
    (on_form (_setFieldStatus inherited path "isSettingMeta" true) ;;;
     metas <- gets fieldMetas ;;
     found <-
       (fun e => (get_prop inherited (store (form e)) metas path, e)) ;;
     let currentMeta :=
       if nullish found then defaultFieldMetaState else found in
     next <- await (on_form (on_store (getUpdatedValue currentMeta update))) ;;
     detach (setFieldMetas (UFunction (with_meta path next))))
    (on_form (_setFieldStatus inherited path "isSettingMeta" false)).

(** [createSignal({})] makes the empty record before [initializeState()]
    is started. *)
Definition createForm (h : heap) : engine :=
  {| form := Form.createForm props (h ++ [Obj ∅]);
     fieldMetas := VRef (length h) |}.

End createForm.
End Meta.

(** ** Vocabulary of the laws of the engine *)

Module Laws.
Import Js Form Spec.

(** The engine has a history within its bounds whose last entry is the
    current one, and that entry is the state of the engine. *)
Definition in_sync (e : engine) : Prop :=
  exists m,
    undoRedoManager e = Some m
    /\ bounded m
    /\ 1 <= UndoRedo.maxHistorySize m
    /\ UndoRedo.currentIndex (UndoRedo.state m)
       = Z.of_nat (length (UndoRedo.history (UndoRedo.state m))) - 1
    /\ UndoRedo.getCurrentState m = state e.

(** The calls a user of the engine can make. *)
Inductive action :=
  | ASetState (update : Update)
  | ASetFieldValue (path : string) (update : Update)
  | ASubmit
  | AReset
  | AUndo (steps : option Z)
  | ARedo (steps : option Z).

Definition perform (inherited : prototypes) (props : Props.CreateFormProps)
    (a : action) : M engine unit :=
  match a with
  | ASetState update => setState props update
  | ASetFieldValue path update => setFieldValue inherited props path update
  | ASubmit => submit props
  | AReset => reset props
  | AUndo steps => undo props steps
  | ARedo steps => redo props steps
  end.

(** The engine after a series of calls, each made when the one before has
    settled, whatever its outcome. *)
Definition after_all (inherited : prototypes)
    (props : Props.CreateFormProps) (actions : list action) (e : engine)
  : engine :=
  fold_left (fun e a => snd (perform inherited props a e)) actions e.

(** A call that goes back or forward goes by a count of steps. *)
Definition forward (a : action) : Prop :=
  match a with
  | AUndo steps | ARedo steps => 0 <= UndoRedo.default_steps steps
  | _ => True
  end.

(** The field at [path] can be assigned as plain data: the path is not
    empty, every value on the way to the last segment is an object or an
    array of the store, none of them is met twice, the segments are
    canonical, and the last segment is an assignable key. *)
Definition settable (inherited : prototypes) (h : heap) (root : value)
    (path : string) : bool :=
  negb (String.eqb path EmptyString)
  && match walk inherited h root (removelast (Path.split path)) with
     | Some locs =>
         bool_decide (NoDup locs)
         && all_canonical h locs (Path.split path)
         && assignable h (List.last locs 0%nat)
                       (List.last (Path.split path) EmptyString)
     | None => false
     end.

(** The array that the state holds at [path], as [get(form.state(), path)]
    finds it: its elements and its named properties. *)
Definition array_at (inherited : prototypes) (e : engine) (path : string)
  : option (list (option value) * gmap string value) :=
  match Path.get inherited (store e) (state e) path with
  | Ok (VRef l) =>
      match store e !! l with
      | Some (Arr elems props) => Some (elems, props)
      | _ => None
      end
  | _ => None
  end.

(** An array without holes. *)
Definition dense (xs : list value) : list (option value) := map Some xs.

End Laws.

(** * Properties *)

(** ** History manager *)

Section History.
Import Js UndoRedo Spec.

Lemma slice_prefix_length {A} (l : list A) (i : Z) :
  0 <= i ->
  Z.of_nat (length (slice l 0 (Some (i + 1))))
    = Z.min (i + 1) (Z.of_nat (length l)).
Proof.
  intros Hi. unfold slice, relative.
  destruct (Z.ltb_spec 0 0); [lia|].
  destruct (Z.ltb_spec (i + 1) 0); [lia|].
  rewrite length_take, length_drop. lia.
Qed.

Lemma slice_suffix_length {A} (l : list A) (max : Z) :
  1 <= max ->
  Z.of_nat (length (slice l (- max) None)) = Z.min (Z.of_nat (length l)) max.
Proof.
  intros Hmax. unfold slice, relative.
  destruct (Z.ltb_spec (- max) 0); [|lia].
  rewrite length_take, length_drop. lia.
Qed.

Lemma setState_length (newState : value) (m : manager) :
  1 <= maxHistorySize m ->
  0 <= currentIndex (state m) ->
  Z.of_nat (length (history (state (setState newState m))))
    = Z.min (Z.min (currentIndex (state m) + 1)
                   (Z.of_nat (length (history (state m)))) + 1)
            (maxHistorySize m).
Proof.
  intros Hmax Hi. unfold setState; simpl.
  rewrite slice_suffix_length by done.
  rewrite length_app, Nat2Z.inj_add, slice_prefix_length by done.
  simpl. lia.
Qed.

Lemma setState_bounded (newState : value) (m : manager) :
  1 <= maxHistorySize m -> bounded m -> bounded (setState newState m).
Proof.
  intros Hmax [Hi Hlen]. unfold bounded.
  rewrite setState_length by lia.
  unfold setState; simpl. lia.
Qed.

Lemma apply_limit (m : manager) (o : op) :
  maxHistorySize (apply m o) = maxHistorySize m.
Proof. by destruct o. Qed.

Lemma apply_bounded (m : manager) (o : op) :
  1 <= maxHistorySize m -> counted o -> bounded m -> bounded (apply m o).
Proof.
  intros Hmax Ho Hm. destruct o as [newState|steps|steps]; simpl in *.
  - by apply setState_bounded.
  - destruct Hm as [Hi Hlen]. unfold bounded; simpl. lia.
  - destruct Hm as [Hi Hlen]. unfold bounded; simpl. lia.
Qed.

Lemma run_bounded (ops : list op) (m : manager) :
  1 <= maxHistorySize m -> Forall counted ops -> bounded m ->
  bounded (run ops m).
Proof.
  unfold run. revert m.
  induction ops as [|o ops IH]; intros m Hmax Hops Hm; simpl; [done|].
  inversion Hops as [|? ? Ho Hrest]; subst.
  apply IH; [by rewrite apply_limit | done | by apply apply_bounded].
Qed.

Lemma created_bounded (initial : value) (limit : Z) :
  1 <= limit -> bounded (createUndoRedoManager initial (Some limit)).
Proof. intros Hlimit. unfold bounded; simpl. lia. Qed.

Lemma run_limit (ops : list op) (m : manager) :
  maxHistorySize (run ops m) = maxHistorySize m.
Proof.
  unfold run. revert m.
  induction ops as [|o ops IH]; intros m; simpl; [done|].
  by rewrite IH, apply_limit.
Qed.

(** C4, as amended.  On a manager created with a limit of at least 1, every
    sequence of [setState], [undo] and [redo] whose step counts are not
    negative keeps [0 <= currentIndex < history.length <= limit]; in
    particular the history is never empty. *)
Theorem history_bounds (initial : value) (limit : Z) (ops : list op) :
  1 <= limit ->
  Forall counted ops ->
  let m := run ops (createUndoRedoManager initial (Some limit)) in
  bounded m /\ maxHistorySize m = limit /\ history (state m) <> [].
Proof.
  intros Hlimit Hops m.
  assert (Hb : bounded m).
  { apply run_bounded; [done | done | by apply created_bounded]. }
  split; [done|]. split; [apply run_limit|].
  destruct Hb as [Hi _]. intros Hnil. rewrite Hnil in Hi. simpl in Hi. lia.
Qed.

(** C4, the claim as written fails: [undo(-1)] on a fresh manager moves the
    index to 1, past the single entry. *)
Lemma history_bounds_negative_steps :
  ~ bounded (run [Undo (Some (-1))] (createUndoRedoManager VNull (Some 1))).
Proof. unfold bounded; simpl. lia. Qed.

Lemma history_bounds_witness :
  1 <= 2 /\
  Forall counted [SetState (VNumber 1); SetState (VNumber 2); Undo (Some 2);
                  Redo None] /\
  let m := run [SetState (VNumber 1); SetState (VNumber 2); Undo (Some 2);
                Redo None]
               (createUndoRedoManager (VNumber 0) (Some 2)) in
  bounded m /\ maxHistorySize m = 2 /\ history (state m) <> [].
Proof.
  split; [lia|]. split; [repeat constructor; simpl; lia|].
  apply (history_bounds (VNumber 0) 2); [lia | repeat constructor; simpl; lia].
Defined.

(** The round trip under any limit of at least 2. *)
Lemma undo_redo_inverse_limit (S0 S1 : value) (limit : Z) :
  2 <= limit ->
  let m1 := setState S1 (createUndoRedoManager S0 (Some limit)) in
  fst (undo None m1) = S0
  /\ fst (redo None (snd (undo None m1))) = S1.
Proof.
  intros Hlimit m1. subst m1.
  unfold setState, undo, redo, slice, relative; simpl.
  destruct (Z.ltb_spec (- limit) 0); [|lia].
  replace ((Z.of_nat 2 + - limit) `max` 0) with 0 by lia.
  replace (0 `max` ((0 + 1) `min` (limit - 1) - 1)) with 0 by lia.
  by split.
Qed.

(** A manager with the limit 1 keeps one entry: there [setState(S1)] drops
    [S0], and [undo()] returns [S1]. *)
Lemma undo_at_limit_one (S0 S1 : value) :
  fst (undo None (setState S1 (createUndoRedoManager S0 (Some 1)))) = S1.
Proof. reflexivity. Qed.

(** C5, as amended.  On a manager created with [S0] and a limit of at least
    2, the default of 350 included, after [setState(S1)] the call [undo()]
    returns [S0] and the following [redo()] returns [S1]; and on any manager
    whose index is 0, [undo()] changes nothing and returns the current
    entry. *)
Theorem undo_redo_inverse (S0 S1 : value) (limit : option Z) (m : manager) :
  (forall n, limit = Some n -> 2 <= n) ->
  currentIndex (state m) = 0 ->
  let m1 := setState S1 (createUndoRedoManager S0 limit) in
  fst (undo None m1) = S0
  /\ fst (redo None (snd (undo None m1))) = S1
  /\ undo None m = (getCurrentState m, m).
Proof.
  intros Hlimit H0 m1. subst m1.
  assert (Hidle : undo None m = (getCurrentState m, m)).
  { destruct m as [[hist idx] max]. simpl in H0. subst idx. reflexivity. }
  destruct limit as [n|].
  - destruct (undo_redo_inverse_limit S0 S1 n (Hlimit n eq_refl)) as [Hu Hr].
    by repeat split.
  - by repeat split.
Qed.

(** C5, the claim as written fails on a manager created with the limit 1,
    which the history manager accepts: after [setState("b")] on the manager
    created with ["a"], [undo()] returns ["b"], not ["a"]. *)
Lemma undo_redo_inverse_limit_one :
  fst (undo None
         (setState (VString "b")
            (createUndoRedoManager (VString "a") (Some 1))))
  <> VString "a".
Proof. simpl. discriminate. Qed.

Lemma undo_redo_inverse_witness :
  let m := createUndoRedoManager (VString "a") (Some 3) in
  (forall n, Some 2 = Some n -> 2 <= n) /\
  currentIndex (state m) = 0 /\
  let m1 :=
    setState (VString "b") (createUndoRedoManager (VString "a") (Some 2)) in
  fst (undo None m1) = VString "a"
  /\ fst (redo None (snd (undo None m1))) = VString "b"
  /\ undo None m = (getCurrentState m, m).
Proof.
  assert (Hlimit : forall n, Some 2 = Some n -> 2 <= n).
  { intros n Hn. injection Hn as <-. lia. }
  split; [exact Hlimit|]. split; [reflexivity|].
  apply (undo_redo_inverse (VString "a") (VString "b") (Some 2));
    [exact Hlimit | reflexivity].
Defined.

End History.

(** ** Form engine *)

Section Engine.
Import Js Form Spec.
Variable inherited : prototypes.
Variable props : Props.CreateFormProps.


(** Unfolds the plumbing of the engine monad and the projections of the
    engine record, leaving the calls to the schema, to the callbacks and to
    the path resolver in place. *)
Tactic Notation "engine_cbv" :=
  cbv [detach bind await suspend modify revalidate setFormStatus ret gets
       try_finally on_store record report setStateInternal
       assign_initialState setUndoRedoManager setErrors setFieldStatuses
       _setFieldStatus log_submission fst snd
       store state undoRedoManager errors formStatus fieldStatuses
       initialState submitted snapshots].
Tactic Notation "engine_cbv" "in" hyp(H) :=
  cbv [detach bind await suspend modify revalidate setFormStatus ret gets
       try_finally on_store record report setStateInternal
       assign_initialState setUndoRedoManager setErrors setFieldStatuses
       _setFieldStatus log_submission fst snd
       store state undoRedoManager errors formStatus fieldStatuses
       initialState submitted snapshots] in H.


(** The store and the state that the operations leave do not depend on what
    the validation answers. *)
Lemma createForm_cells (h : heap) (v : value) :
  Props.initialState props = IValue v ->
  store (createForm props h) = h /\ state (createForm props h) = v.
Proof.
  intros Hinit. unfold createForm, initializeState. rewrite Hinit.
  unfold getInitialValue, blank. engine_cbv.
  destruct (Props.schema props _ _) as [[data|flattened]|x|];
    split; reflexivity.
Qed.

Lemma setState_value_cells (next : value) (e : engine) :
  store (snd (setState props (UValue next) e)) = store e
  /\ state (snd (setState props (UValue next) e)) = next.
Proof.
  unfold setState, getUpdatedValue. engine_cbv.
  destruct (Props.schema props _ _) as [[data|flattened]|x|];
    split; reflexivity.
Qed.

Lemma setFieldValue_cells (path : string) (update : Update) (e : engine)
    (current x root : value) (h1 h2 : heap) :
  Path.get inherited (store e) (state e) path = Ok current ->
  getUpdatedValue current update (store e) = (Ok x, h1) ->
  truthy (state e) = true ->
  Path.set inherited h1 (state e) path x = Ok (root, h2) ->
  store (snd (setFieldValue inherited props path update e)) = h2
  /\ state (snd (setFieldValue inherited props path update e)) = root.
Proof.
  intros Hget Hupdate Htruthy Hset.
  unfold setFieldValue. engine_cbv.
  engine_cbv in Hget; engine_cbv in Hupdate; engine_cbv in Htruthy;
    engine_cbv in Hset.
  rewrite Hget, Hupdate, Htruthy, Hset.
  match goal with
  | |- context [setState props (UValue root) ?e0] =>
      pose proof (setState_value_cells root e0) as [Hs Ht];
      destruct (setState props (UValue root) e0) as [[[]|?|] e1]
  end; engine_cbv; engine_cbv in Hs; engine_cbv in Ht; by subst.
Qed.

Lemma setValue_cells (path : string) (update : Update) (e : engine)
    (current x root : value) (h1 h2 : heap) :
  Path.get inherited (store e) (state e) path = Ok current ->
  getUpdatedValue current update (store e) = (Ok x, h1) ->
  truthy (state e) = true ->
  Path.set inherited h1 (state e) path x = Ok (root, h2) ->
  let e' := snd (await (Field.setValue inherited props path update) e) in
  store e' = h2 /\ state e' = root.
Proof.
  intros Hget Hupdate Htruthy Hset.
  unfold await, suspend, modify, bind, Field.setValue. cbv beta iota.
  match goal with
  | |- context [setFieldValue inherited props path update ?e0] =>
      exact (setFieldValue_cells path update e0 current x root h1 h2
               Hget Hupdate Htruthy Hset)
  end.
Qed.

(** Reading the state at a path after [setValue] on a fresh form comes down
    to the path resolver and the update. *)
Lemma state_after_setValue (h : heap) (path : string) (update : Update)
    (v current x root : value) (h1 h2 : heap) :
  Props.initialState props = IValue v ->
  Path.get inherited h v path = Ok current ->
  getUpdatedValue current update h = (Ok x, h1) ->
  truthy v = true ->
  Path.set inherited h1 v path x = Ok (root, h2) ->
  state_after inherited props h path
    (await (Field.setValue inherited props path update))
  = match Path.get inherited h2 root path with
    | Ok w => Ok (Snapshot.snapshot 4 h2 w)
    | Throw x => Throw x
    | Unsupported => Unsupported
    end.
Proof.
  intros Hinit Hget Hupdate Htruthy Hset.
  destruct (createForm_cells h v Hinit) as [Hs Ht].
  unfold state_after.
  destruct (setValue_cells path update (createForm props h)
              current x root h1 h2) as [-> ->]; [| | | |done].
  all: by rewrite ?Hs, ?Ht.
Qed.

(** The same for [empty], which first makes the empty array. *)
Lemma state_after_empty (h : heap) (path : string)
    (v current root : value) (h2 : heap) :
  Props.initialState props = IValue v ->
  Path.get inherited (h ++ [Arr [] ∅]) v path = Ok current ->
  truthy v = true ->
  Path.set inherited (h ++ [Arr [] ∅]) v path (VRef (length h))
    = Ok (root, h2) ->
  state_after inherited props h path (Field.empty inherited props path)
  = match Path.get inherited h2 root path with
    | Ok w => Ok (Snapshot.snapshot 4 h2 w)
    | Throw x => Throw x
    | Unsupported => Unsupported
    end.
Proof.
  intros Hinit Hget Htruthy Hset.
  destruct (createForm_cells h v Hinit) as [Hs Ht].
  unfold state_after, Field.empty, bind, on_store,
    Field.new_array, alloc. cbv beta iota.
  match goal with
  | |- context [await (Field.setValue inherited props path ?u) ?e0] =>
      destruct (setValue_cells path u e0 current
                  (VRef (length h)) root (h ++ [Arr [] ∅]) h2)
        as [-> ->]; [ | | | | done]
  end.
  all: cbn [store state map]; rewrite ?Hs, ?Ht; done.
Qed.


(** C7.  [submit()] invokes the submit handler exactly when the validation of
    the current state succeeds, and then with the data the schema returned;
    when the validation fails, [submit()] returns normally and the handler is
    not invoked.  The log [submitted] grows by the argument of each
    invocation, and the store afterwards is the one the handler leaves. *)
Theorem submit_iff_valid (e : engine) :
  let result := submit props e in
  match Props.schema props (store e) (state e) with
  | Ok (ParseSuccess data) =>
      submitted (snd result) = submitted e ++ [data]
      /\ (fst result, store (snd result))
           = Props.onSubmit props data (store e)
  | Ok (ParseFailure _) =>
      fst result = Ok tt
      /\ submitted (snd result) = submitted e
      /\ store (snd result) = store e
  | Throw _ | Unsupported =>
      submitted (snd result) = submitted e
      /\ store (snd result) = store e
  end.
Proof.
  cbv [submit bind await suspend modify revalidate setFormStatus ret
       try_finally on_store log_submission]. simpl.
  destruct (Props.schema props (store e) (state e)) as [[data|flattened]|x|];
    simpl; try done.
  destruct (Props.onSubmit props data (store e)) as [[[]|x|] h]; done.
Qed.

(** C3, what the code does.  [setState] is suspended at least once, and in
    every status it shows while suspended, as in the status it leaves
    behind, [settingState] is what it was before the call: the key the
    function sets and clears is [isSettingState]. *)
Theorem setState_settingState (update : Update) (e : engine) :
  let e' := snd (setState props update e) in
  let during := since (length (snapshots e)) e' in
  during <> []
  /\ Forall (fun status =>
               status !! "settingState" = formStatus e !! "settingState"
               /\ status !! "isSettingState" = Some true) during
  /\ formStatus e' !! "settingState" = formStatus e !! "settingState"
  /\ formStatus e' !! "isSettingState" = Some false.
Proof.
  cbv [setState bind await suspend modify revalidate setFormStatus ret gets
       try_finally on_store record report setStateInternal
       setUndoRedoManager setErrors since]. simpl.
  destruct (getUpdatedValue (state e) update (store e)) as [[next|x|] h];
    simpl.
  2,3: rewrite drop_app_length; repeat split;
    [done | repeat constructor | |]; by simplify_map_eq.
  destruct (Props.schema props h next) as [[data|flattened]|x|]; simpl;
    rewrite <- !app_assoc, drop_app_length; simpl.
  all: repeat split; [done | repeat constructor | |]; by simplify_map_eq.
Qed.

End Engine.

(** ** Path resolver and field views *)

Section Fields.
Import Js Form Spec Snapshot.
Variable inherited : prototypes.

Lemma split_cons (path : string) :
  exists key keys, Path.split path = key :: keys.
Proof.
  destruct path as [|c rest]; simpl; [by eauto|].
  destruct (Ascii.eqb c "."); [by eauto|].
  destruct (Path.split rest); by eauto.
Qed.

(** C2, what the code does.  [get] throws a [TypeError] as soon as the value
    it has to index is [null] or [undefined]: for a root that is [null] (the
    state of an engine before it is initialized) or [undefined], whatever
    the path, and for an intermediate [null] as in [get({ user: null },
    "user.name")]. *)
Theorem get_throws_on_null (h : heap) (path : string) :
  Path.get inherited h VNull path = Throw TypeError
  /\ Path.get inherited h VUndefined path = Throw TypeError
  /\ Field.value inherited path (blank h) = Throw TypeError
  /\ Path.get inherited orphan_store (VRef 0) "user.name" = Throw TypeError.
Proof.
  unfold Field.value, Path.get. simpl.
  destruct (split_cons path) as (key & keys & ->).
  repeat split; reflexivity.
Qed.

(** *** Reading back what [set] wrote *)

Local Arguments get_prop : simpl never.
Local Arguments set_prop : simpl never.
Local Arguments Path.get_step : simpl never.

Lemma read_write_elem (elems : list (option value)) (n : nat) (x : value) :
  read_elem (write_elem elems n x) n = x.
Proof.
  unfold read_elem, write_elem.
  destruct (Nat.ltb_spec n (length elems)) as [Hin|Hout].
  - by rewrite list_lookup_insert_eq.
  - rewrite lookup_app_r by lia.
    rewrite lookup_app_r by (rewrite length_replicate; lia).
    rewrite length_replicate, Nat.sub_diag. reflexivity.
Qed.

(** [get] and [set] take the same step through a container when the segment
    is canonical there. *)
Lemma get_step_canonical (h : heap) (l : loc) (key : string) :
  canonical h l key = true ->
  Path.get_step inherited h (VRef l) key = get_prop inherited h (VRef l) key.
Proof.
  unfold canonical, Path.get_step, isArray, get_index, get_prop.
  destruct (h !! l) as [[props|elems props]|]; simpl; try done.
  destruct (digits_only key) eqn:Hdigits; simpl; [|done].
  intros Hindex. apply bool_decide_eq_true in Hindex as [n Hn].
  rewrite Hn. unfold array_index in Hn.
  destruct (_ && _ && (parseInt key <? max_index)%N) eqn:Hguard; [|done].
  apply andb_prop in Hguard as [_ ->]. congruence.
Qed.

(** A step depends on the store through the container it reads only. *)
Lemma get_step_agree (h h' : heap) (l : loc) (key : string) :
  h' !! l = h !! l ->
  Path.get_step inherited h' (VRef l) key
    = Path.get_step inherited h (VRef l) key.
Proof.
  intros Hl. unfold Path.get_step, isArray, get_index, get_prop.
  by rewrite Hl.
Qed.

Lemma walk_nonempty (h : heap) (cur : value) (keys : list string) :
  walk inherited h cur keys <> Some [].
Proof.
  destruct cur as [| | | | |l]; destruct keys as [|key keys]; simpl;
    try done.
  - by destruct (h !! l).
  - destruct (get_prop inherited h (VRef l) key) as [next| |]; try done.
    by destruct (walk inherited h next keys).
Qed.

(** Where [set] arrives after the segments before the last. *)
Lemma walk_reduce (h : heap) (keys : list string) :
  forall (cur : value) (locs : list loc),
  walk inherited h cur keys = Some locs ->
  exists before target,
    locs = before ++ [target]
    /\ Path.reduce inherited h cur keys = Ok (VRef target)
    /\ is_Some (h !! target).
Proof.
  induction keys as [|key keys IH]; intros cur locs Hwalk;
    destruct cur as [| | | | |l]; simpl in Hwalk; try done.
  - destruct (h !! l) as [o|] eqn:Hl; [|done].
    injection Hwalk as <-. exists [], l. by rewrite Hl.
  - simpl. destruct (get_prop inherited h (VRef l) key) as [next| |]; try done.
    destruct (walk inherited h next keys) as [locs'|] eqn:Hrest; [|done].
    injection Hwalk as <-.
    destruct (IH next locs' Hrest) as (before & target & -> & Hreduce & Hsome).
    by exists (l :: before), target.
Qed.

(** [get] follows the same containers through a store that differs from the
    walked one at the last container at most. *)
Lemma get_loop_walk (h h' : heap) (target : loc) (keys : list string) :
  (forall l, l <> target -> h' !! l = h !! l) ->
  forall (cur : value) (before : list loc),
  walk inherited h cur keys = Some (before ++ [target]) ->
  target ∉ before ->
  all_canonical h before keys = true ->
  Path.get_loop inherited h' cur keys = Ok (VRef target).
Proof.
  intros Hsame.
  induction keys as [|key keys IH]; intros cur before Hwalk Hfresh Hcanon;
    destruct cur as [| | | | |l]; simpl in Hwalk; try done.
  - destruct (h !! l); [|done]. injection Hwalk as Hlocs.
    destruct before as [|l' before]; simpl in Hlocs; [by simplify_eq|].
    by destruct before.
  - destruct (get_prop inherited h (VRef l) key) as [next| |] eqn:Hnext;
      try done.
    destruct (walk inherited h next keys) as [locs'|] eqn:Hrest; [|done].
    injection Hwalk as Hlocs.
    destruct before as [|l' before]; simpl in Hlocs.
    { injection Hlocs as -> ->. by destruct (walk_nonempty h next keys). }
    injection Hlocs as -> ->.
    apply not_elem_of_cons in Hfresh as [Hne Hfresh].
    simpl in Hcanon. apply andb_prop in Hcanon as [Hkey Hcanon].
    simpl. rewrite (get_step_agree h h') by (apply Hsame; congruence).
    rewrite get_step_canonical, Hnext by done.
    by apply (IH next before).
Qed.

Lemma get_loop_snoc (h : heap) (keys : list string) (key : string) :
  forall cur target,
  Path.get_loop inherited h cur keys = Ok target ->
  Path.get_loop inherited h cur (keys ++ [key])
    = Path.get_loop inherited h target [key].
Proof.
  induction keys as [|k keys IH]; intros cur target Hloop; simpl in *.
  - by injection Hloop as ->.
  - destruct (Path.get_step inherited h cur k) as [next| |]; try done.
    by apply IH.
Qed.

Lemma walk_length (h : heap) (keys : list string) :
  forall (cur : value) (locs : list loc),
  walk inherited h cur keys = Some locs -> length locs = S (length keys).
Proof.
  induction keys as [|key keys IH]; intros cur locs Hwalk;
    destruct cur as [| | | | |l]; simpl in Hwalk; try done.
  - destruct (h !! l); [|done]. by injection Hwalk as <-.
  - destruct (get_prop inherited h (VRef l) key) as [next| |]; try done.
    destruct (walk inherited h next keys) as [locs'|] eqn:Hrest; [|done].
    injection Hwalk as <-. simpl. by rewrite (IH next locs').
Qed.

Lemma all_canonical_app (h : heap) (locs1 locs2 : list loc) :
  forall (keys1 keys2 : list string),
  length locs1 = length keys1 ->
  all_canonical h (locs1 ++ locs2) (keys1 ++ keys2)
    = all_canonical h locs1 keys1 && all_canonical h locs2 keys2.
Proof.
  induction locs1 as [|l locs1 IH]; intros [|key keys1] keys2 Hlen;
    simpl in *; try done.
  rewrite IH by lia. by rewrite andb_assoc.
Qed.

(** The assignment at the last container, read back by one step of [get]. *)
Lemma set_prop_get_step (h : heap) (l : loc) (key : string) (x : value) :
  assignable h l key = true ->
  canonical h l key = true ->
  exists h',
    set_prop h (VRef l) key x = Ok h'
    /\ (forall l', l' <> l -> h' !! l' = h !! l')
    /\ Path.get_step inherited h' (VRef l) key = Ok x.
Proof.
  unfold assignable, canonical. intros Hassign Hcanon.
  destruct (h !! l) as [[props|elems props]|] eqn:Hl; [| |done].
  - apply negb_true_iff in Hassign.
    exists (<[l := Obj (<[key := x]> props)]> h).
    assert (Hnew : <[l := Obj (<[key := x]> props)]> h !! l
                   = Some (Obj (<[key := x]> props))).
    { apply list_lookup_insert_eq. by eapply lookup_lt_Some. }
    split; [|split].
    + unfold set_prop. by rewrite Hl, Hassign.
    + intros l' Hne. by apply list_lookup_insert_ne.
    + unfold Path.get_step, isArray, get_prop. rewrite Hnew. simpl.
      by rewrite lookup_insert_eq.
  - destruct (array_index key) as [n|] eqn:Hindex; simpl in *.
    + exists (<[l := Arr (write_elem elems n x) props]> h).
      assert (Hnew : <[l := Arr (write_elem elems n x) props]> h !! l
                     = Some (Arr (write_elem elems n x) props)).
      { apply list_lookup_insert_eq. by eapply lookup_lt_Some. }
      split; [|split].
      * unfold set_prop. by rewrite Hl, Hindex.
      * intros l' Hne. by apply list_lookup_insert_ne.
      * rewrite get_step_canonical.
        -- unfold get_prop. by rewrite Hnew, Hindex, read_write_elem.
        -- unfold canonical. rewrite Hnew, Hindex. simpl.
           by rewrite orb_true_r.
    + rewrite orb_false_r in Hcanon.
      apply negb_true_iff in Hassign.
      exists (<[l := Arr elems (<[key := x]> props)]> h).
      assert (Hnew : <[l := Arr elems (<[key := x]> props)]> h !! l
                     = Some (Arr elems (<[key := x]> props))).
      { apply list_lookup_insert_eq. by eapply lookup_lt_Some. }
      split; [|split].
      * unfold set_prop. by rewrite Hl, Hindex, Hassign.
      * intros l' Hne. by apply list_lookup_insert_ne.
      * rewrite get_step_canonical.
        -- unfold get_prop. rewrite Hnew, Hindex.
           apply orb_false_elim in Hassign as [-> _].
           by rewrite lookup_insert_eq.
        -- unfold canonical. by rewrite Hnew, Hcanon.
Qed.

Lemma split_snoc (path : string) :
  Path.split path
    = removelast (Path.split path) ++ [List.last (Path.split path) EmptyString].
Proof.
  apply app_removelast_last.
  destruct (split_cons path) as (key & keys & ->). done.
Qed.

(** The round trip of a path through a tree.  [root] is the root of a tree
    in which the containers before the last segment of [path] exist, no
    container occurring twice on the way; every segment of digits that meets
    an array is a canonical index, and the last segment can be assigned as
    plain data.  Then [set] returns, and [get] reads the assigned value back
    at the same path. *)
Lemma get_set_canonical (h : heap) (root : value) (path : string)
    (x : value) (locs : list loc) :
  path <> EmptyString ->
  walk inherited h root (removelast (Path.split path)) = Some locs ->
  NoDup locs ->
  all_canonical h locs (Path.split path) = true ->
  assignable h (List.last locs 0%nat)
             (List.last (Path.split path) EmptyString) = true ->
  exists h',
    Path.set inherited h root path x = Ok (root, h')
    /\ Path.get inherited h' root path = Ok x.
Proof.
  intros Hpath Hwalk Hdup Hcanon Hassign.
  destruct (walk_reduce _ _ _ _ Hwalk)
    as (before & target & -> & Hreduce & Hsome).
  rewrite last_last in Hassign.
  apply NoDup_app in Hdup as (_ & Hfresh & _).
  assert (Hlen : length before = length (removelast (Path.split path))).
  { apply walk_length in Hwalk. rewrite length_app in Hwalk.
    simpl in Hwalk. lia. }
  rewrite (split_snoc path), all_canonical_app in Hcanon by done.
  apply andb_prop in Hcanon as [Hbefore Hlast].
  simpl in Hlast. rewrite andb_true_r in Hlast.
  destruct (set_prop_get_step h target _ x Hassign Hlast)
    as (h' & Hset & Hsame & Hstep).
  exists h'. split.
  - unfold Path.set.
    destruct (String.eqb_spec path EmptyString); [done|].
    by rewrite Hreduce, Hset.
  - unfold Path.get. rewrite (split_snoc path).
    rewrite (get_loop_snoc h' _ _ root (VRef target)).
    + simpl. by rewrite Hstep.
    + apply (get_loop_walk h h' target _ Hsame root before); try done.
      intros Hin. by apply (Hfresh target Hin), list_elem_of_singleton.
Qed.

(** C6, what the code does.  In [{ items: ["x", "y"] }] the path
    ["items.01"] goes through an existing array, and [set] returns; but it
    has stored the value under the name ["01"] of the array, while [get]
    turns the same segment into the index 1 and reads ["y"]. *)
Theorem get_set_leading_zero :
  let root := VRef 0 in
  exists h',
    Path.set inherited pair_store root "items.01" (VString "z")
      = Ok (root, h')
    /\ Path.get inherited h' root "items.01" = Ok (VString "y")
    /\ Path.get inherited h' root "items.01" <> Ok (VString "z")
    /\ Snapshot.snapshot 4 h' root
         = TObject
             [("items",
               TArray [Some (TString "x"); Some (TString "y")]
                      [("01", TString "z")])].
Proof.
  eexists. split; [vm_compute; reflexivity|].
  vm_compute. repeat split; congruence.
Qed.

(** C10.  When the initial state holds a falsy value at the path of a field
    ([undefined], [null], [false], [0] or the empty string), the [reset] of
    the field returns at once: [setFieldValue] is not called and the engine
    is left as it was. *)
Theorem reset_skips_falsy (props : Props.CreateFormProps) (path : string)
    (e : engine) (initialValue : value) :
  Path.get inherited (store e) (initialState e) path = Ok initialValue ->
  truthy initialValue = false ->
  Field.reset inherited props path e = (Ok tt, e).
Proof.
  intros Hget Hfalsy. unfold Field.reset, bind.
  rewrite Hget, Hfalsy. reflexivity.
Qed.

(** C1, what the code does.  The form is created on [{ name: "John", age: 0 }];
    its history holds one entry, which reads [{ name: "John", age: 0 }].
    After [setFieldValue("name", "Alice")] that first entry reads
    [{ name: "Alice", age: 0 }]: [set] has written into the object that the
    entry refers to. *)
Theorem set_rewrites_history :
  let p := form_of (VRef 0) in
  let before := createForm p person_store in
  let after :=
    snd (setFieldValue inherited p "name" (UValue (VString "Alice")) before) in
  let entries e :=
    match undoRedoManager e with
    | Some m =>
        map (snapshot 4 (store e)) (UndoRedo.history (UndoRedo.state m))
    | None => []
    end in
  entries before
    = [TObject [("age", TNumber 0); ("name", TString "John")]]
  /\ entries after
    = [TObject [("age", TNumber 0); ("name", TString "Alice")];
       TObject [("age", TNumber 0); ("name", TString "Alice")]]
  /\ entries before !! 0%nat <> entries after !! 0%nat.
Proof. vm_compute. repeat split; congruence. Qed.

End Fields.

(** *** Array operations on [["item1", "item2", "item3"]] *)

Section ArrayField.
Import Js Form Spec Snapshot.
Variable inherited : prototypes.
Variable schema : heap -> value -> outcome SafeParseResult.
Variable onSubmit : value -> M heap unit.
Variable undoLimit : option Z.

Let p := form_with schema onSubmit undoLimit.
Let after := state_after inherited p items_store "items".
Let str (s : string) := Some (TString s).
Let lit (s : string) := IValue (VString s).
Let num (n : Z) := IValue (VNumber n).

(** Evaluates an array operation on a fresh form: the cells after
    [setValue] are given by [state_after_setValue], the rest is computed. *)
Ltac array_case :=
  subst after;
  erewrite state_after_setValue;
    [ | reflexivity | vm_compute; reflexivity ..];
  vm_compute; reflexivity.

Lemma push_items :
  after (Field.push inherited p "items" (lit "x"))
    = Ok (TArray [str "item1"; str "item2"; str "item3"; str "x"] []).
Proof. unfold Field.push. array_case. Qed.

Lemma remove_items :
  after (Field.remove inherited p "items" (num 1))
    = Ok (TArray [str "item1"; str "item3"] []).
Proof. unfold Field.remove. array_case. Qed.

Lemma move_items :
  after (Field.move inherited p "items" (num 0) (num 2))
    = Ok (TArray [str "item2"; str "item3"; str "item1"] []).
Proof. unfold Field.move. array_case. Qed.

Lemma swap_items :
  after (Field.swap inherited p "items" (num 0) (num 2))
    = Ok (TArray [str "item3"; str "item2"; str "item1"] []).
Proof. unfold Field.swap. array_case. Qed.

Lemma insert_items :
  after (Field.insert inherited p "items" (num 1) (lit "y"))
    = Ok (TArray [str "item1"; str "y"; str "item2"; str "item3"] []).
Proof. unfold Field.insert. array_case. Qed.

Lemma replace_items :
  after (Field.replace inherited p "items" (num 0) (lit "z"))
    = Ok (TArray [str "z"; str "item2"; str "item3"] []).
Proof. unfold Field.replace. array_case. Qed.

Lemma empty_items :
  after (Field.empty inherited p "items") = Ok (TArray [] []).
Proof.
  subst after.
  erewrite state_after_empty;
    [ | reflexivity | vm_compute; reflexivity ..];
  vm_compute; reflexivity.
Qed.

(** C8.  Whatever the schema, the submit handler and the undo limit of the
    form, on the array field [["item1", "item2", "item3"]] each operation of
    the array field view puts at the path of the field, in the state, the
    array that the specification says: [after] is what
    [get(form.state(), "items")] returns once the operation is over. *)
Theorem array_operations :
  after (Field.push inherited p "items" (lit "x"))
    = Ok (TArray [str "item1"; str "item2"; str "item3"; str "x"] [])
  /\ after (Field.remove inherited p "items" (num 1))
    = Ok (TArray [str "item1"; str "item3"] [])
  /\ after (Field.move inherited p "items" (num 0) (num 2))
    = Ok (TArray [str "item2"; str "item3"; str "item1"] [])
  /\ after (Field.swap inherited p "items" (num 0) (num 2))
    = Ok (TArray [str "item3"; str "item2"; str "item1"] [])
  /\ after (Field.insert inherited p "items" (num 1) (lit "y"))
    = Ok (TArray [str "item1"; str "y"; str "item2"; str "item3"] [])
  /\ after (Field.replace inherited p "items" (num 0) (lit "z"))
    = Ok (TArray [str "z"; str "item2"; str "item3"] [])
  /\ after (Field.empty inherited p "items")
    = Ok (TArray [] []).
Proof.
  exact (conj push_items (conj remove_items (conj move_items
          (conj swap_items (conj insert_items (conj replace_items
            empty_items)))))).
Qed.

End ArrayField.

(** ** Instances on concrete forms *)

Section Instances.
Import Js Form Spec.


(** On a form that has finished its initialization, the statuses shown
    while [setState] is suspended all have [settingState] false. *)
Lemma setState_in_flight :
  let p := form_of (VRef 0) in
  let e := createForm p person_store in
  map (fun status : gmap string bool => status !! "settingState")
      (since (length (snapshots e)) (snd (setState p (UValue (VRef 0)) e)))
    = [Some false; Some false; Some false].
Proof. vm_compute. reflexivity. Qed.

(** The round trip on the path ["items.1"] of [{ items: ["x", "y"] }]. *)
Lemma get_set_canonical_items :
  exists h',
    Path.set builtins pair_store (VRef 0) "items.1" (VString "z")
      = Ok (VRef 0, h')
    /\ Path.get builtins h' (VRef 0) "items.1" = Ok (VString "z").
Proof.
  apply (get_set_canonical builtins pair_store (VRef 0) "items.1"
           (VString "z") [0; 1]%nat).
  - discriminate.
  - reflexivity.
  - apply NoDup_cons. split; [|apply NoDup_singleton].
    by intros Hin%list_elem_of_singleton.
  - reflexivity.
  - reflexivity.
Qed.

Lemma reset_skips_falsy_witness :
  let p := form_of (VRef 0) in
  let e := createForm p person_store in
  Path.get builtins (store e) (initialState e) "age" = Ok (VNumber 0)
  /\ truthy (VNumber 0) = false
  /\ Field.reset builtins p "age" e = (Ok tt, e).
Proof.
  split; [reflexivity|]. split; [reflexivity|].
  apply (reset_skips_falsy builtins (form_of (VRef 0)) "age" _ (VNumber 0));
    reflexivity.
Defined.

End Instances.

(** * Further properties *)

(** ** Laws of the history manager *)

Section HistoryLaws.
Import Js UndoRedo Spec.

Lemma slice_prefix {A} (l : list A) (i : Z) :
  0 <= i -> slice l 0 (Some (i + 1)) = take (Z.to_nat (i + 1)) l.
Proof.
  intros Hi. unfold slice, relative.
  destruct (Z.ltb_spec 0 0); [lia|].
  destruct (Z.ltb_spec (i + 1) 0); [lia|].
  replace (0 `min` Z.of_nat (length l)) with 0 by lia.
  rewrite Z.sub_0_r. change (Z.to_nat 0) with 0%nat. rewrite drop_0.
  destruct (Z.le_gt_cases (i + 1) (Z.of_nat (length l))).
  - by rewrite Z.min_l.
  - rewrite Z.min_r by lia. rewrite Nat2Z.id.
    rewrite !take_ge; [done | lia | lia].
Qed.

Lemma slice_suffix {A} (l : list A) (max : Z) :
  1 <= max ->
  slice l (- max) None
    = drop (Z.to_nat (Z.max (Z.of_nat (length l) - max) 0)) l.
Proof.
  intros Hmax. unfold slice, relative.
  destruct (Z.ltb_spec (- max) 0); [|lia].
  replace (Z.of_nat (length l) + - max) with (Z.of_nat (length l) - max)
    by lia.
  apply take_ge. rewrite length_drop. lia.
Qed.

Lemma setState_history (newState : value) (m : manager) :
  1 <= maxHistorySize m -> bounded m ->
  history (state (setState newState m))
    = drop (Z.to_nat (Z.max (currentIndex (state m) + 2 - maxHistorySize m) 0))
        (take (Z.to_nat (currentIndex (state m) + 1)) (history (state m))
           ++ [newState]).
Proof.
  intros Hmax [Hi Hlen]. unfold setState; simpl.
  rewrite slice_prefix, slice_suffix by lia.
  rewrite length_app, length_take. simpl.
  do 2 f_equal. lia.
Qed.

Lemma setState_index (newState : value) (m : manager) :
  currentIndex (state (setState newState m))
    = Z.min (currentIndex (state m) + 1) (maxHistorySize m - 1).
Proof. reflexivity. Qed.

(** The state just recorded is the one the manager reports as current. *)
Lemma setState_last (newState : value) (m : manager) :
  1 <= maxHistorySize m -> bounded m ->
  getCurrentState (setState newState m) = newState.
Proof.
  intros Hmax Hb. pose proof Hb as [Hi Hlen].
  unfold getCurrentState, entry.
  rewrite setState_index, setState_history by done.
  set (kept := take _ _ ++ [newState]).
  assert (Hk : Z.of_nat (length kept) = currentIndex (state m) + 2).
  { subst kept. rewrite length_app, length_take. simpl. lia. }
  destruct (Z.ltb_spec ((currentIndex (state m) + 1)
                          `min` (maxHistorySize m - 1)) 0); [lia|].
  rewrite lookup_drop.
  replace (_ + _)%nat with (length kept - 1)%nat by lia.
  subst kept. rewrite lookup_app_r by (rewrite length_take; lia).
  rewrite length_app, length_take. simpl.
  replace (_ - _)%nat with 0%nat by lia. done.
Qed.

(** X1.  On a manager within its bounds, the state just recorded is the
    current one and the last of the history: nothing can be redone, and
    something can be undone exactly when the history has two entries. *)
Theorem setState_current (newState : value) (m : manager) :
  1 <= maxHistorySize m -> bounded m ->
  let m' := setState newState m in
  getCurrentState m' = newState
  /\ currentIndex (state m') = Z.of_nat (length (history (state m'))) - 1
  /\ canRedo None m' = false
  /\ canUndo None m' = (2 <=? Z.of_nat (length (history (state m')))).
Proof.
  intros Hmax Hb m'. subst m'. pose proof Hb as [Hi Hlen].
  assert (Hlen' := setState_length newState m Hmax (proj1 Hi)).
  split; [by apply setState_last|].
  unfold canRedo, canUndo. rewrite Hlen', setState_index. simpl.
  repeat split; lia.
Qed.

(** X2.  What [setState] makes of the history.  While there is room, the
    entries up to the current one are kept, those after it are dropped, and
    the new state is appended.  When the current entry is the last one the
    limit allows, the oldest entry is dropped instead, and the index and
    the length stay. *)
Theorem setState_history_after (newState : value) (m : manager) :
  bounded m ->
  let m' := setState newState m in
  (currentIndex (state m) + 2 <= maxHistorySize m ->
   history (state m')
   = take (Z.to_nat (currentIndex (state m) + 1)) (history (state m))
       ++ [newState])
  /\ (currentIndex (state m) + 1 = maxHistorySize m ->
      history (state m') = drop 1 (history (state m)) ++ [newState]
      /\ currentIndex (state m') = currentIndex (state m)
      /\ length (history (state m')) = length (history (state m))).
Proof.
  intros Hb m'. subst m'. pose proof Hb as [Hi Hlen]. split.
  - intros Hroom. rewrite setState_history by (done || lia).
    replace (Z.to_nat _) with 0%nat by lia. apply drop_0.
  - intros Hfull.
    rewrite setState_history, setState_index by (done || lia).
    replace (Z.to_nat (_ `max` 0)) with 1%nat by lia.
    rewrite take_ge by lia.
    destruct (history (state m)) as [|oldest rest] eqn:Hh; simpl in *;
      [lia|].
    rewrite drop_0. repeat split; [lia|]. rewrite length_app. simpl. lia.
Qed.

(** X3.  [undo] and [redo] by the same count of steps cancel each other
    when the first of the two has that many steps to go: the manager is
    back as it was, and the second call returns the entry that was
    current. *)
Theorem undo_redo_cancel (steps : option Z) (m : manager) :
  bounded m ->
  0 <= default_steps steps ->
  (canUndo steps m = true ->
   fst (undo steps m)
   = entry (history (state m)) (currentIndex (state m) - default_steps steps)
   /\ redo steps (snd (undo steps m)) = (getCurrentState m, m))
  /\ (canRedo steps m = true ->
      fst (redo steps m)
      = entry (history (state m))
              (currentIndex (state m) + default_steps steps)
      /\ undo steps (snd (redo steps m)) = (getCurrentState m, m)).
Proof.
  intros [Hi Hlen] Hsteps.
  destruct m as [[hist idx] max]. unfold canUndo, canRedo, undo, redo,
    getCurrentState. simpl in *. split; intros Hcan.
  - apply Z.leb_le in Hcan.
    replace (0 `max` (idx - default_steps steps))
      with (idx - default_steps steps) by lia.
    replace ((Z.of_nat (length hist) - 1)
               `min` (idx - default_steps steps + default_steps steps))
      with idx by lia.
    done.
  - apply Z.ltb_lt in Hcan.
    replace ((Z.of_nat (length hist) - 1) `min` (idx + default_steps steps))
      with (idx + default_steps steps) by lia.
    replace (0 `max` (idx + default_steps steps - default_steps steps))
      with idx by lia.
    done.
Qed.

(** X4.  Going back in two calls is going back in one: for counts of steps
    that are not negative, [undo(a)] followed by [undo(b)] leaves the
    manager, and returns the entry, of [undo(a + b)].  The index and the sum
    of the counts are safe integers, where the doubles of the source are
    exact. *)
Theorem undo_undo (a b : Z) (m : manager) :
  0 <= a -> 0 <= b -> a + b < 2 ^ 53 ->
  0 <= currentIndex (state m) < 2 ^ 53 ->
  undo (Some b) (snd (undo (Some a) m)) = undo (Some (a + b)) m.
Proof.
  intros Ha Hb Hsum Hi. unfold undo; simpl.
  replace (0 `max` (0 `max` (currentIndex (state m) - a) - b))
    with (0 `max` (currentIndex (state m) - (a + b))) by lia.
  done.
Qed.

End HistoryLaws.

(** ** Laws of the path resolver *)

Section PathLaws.
Import Js Spec.
Variable inherited : prototypes.





Lemma set_prop_ok (h h' : heap) (target : value) (key : string) (x : value) :
  set_prop h target key x = Ok h' ->
  exists l o o',
    target = VRef l /\ h !! l = Some o /\ h' = <[l := o']> h
    /\ (match o, o' with
        | Obj _, Obj _ | Arr _ _, Arr _ _ => True
        | _, _ => False
        end).
Proof.
  unfold set_prop. destruct target as [| | | | |l]; try done.
  destruct (h !! l) as [[props|elems props]|] eqn:Hl; [| |done].
  - destruct (String.eqb key "__proto__"); [done|]. intros [= <-].
    by exists l, (Obj props), (Obj (<[key := x]> props)).
  - destruct (array_index key) as [n|].
    + intros [= <-].
      by exists l, (Arr elems props), (Arr (write_elem elems n x) props).
    + destruct (_ || _); [done|]. intros [= <-].
      by exists l, (Arr elems props), (Arr elems (<[key := x]> props)).
Qed.

(** X6.  [set] returns the root it was given and assigns in one container:
    the store keeps its size, every other object is left as it was, and what
    was an array stays an array. *)
Theorem set_touches_one (h h' : heap) (root r : value) (path : string)
    (x : value) :
  Path.set inherited h root path x = Ok (r, h') ->
  r = root
  /\ length h' = length h
  /\ (forall v, isArray h' v = isArray h v)
  /\ exists target, forall l, l <> target -> h' !! l = h !! l.
Proof.
  unfold Path.set. destruct (String.eqb path EmptyString).
  { intros [= <- <-]. repeat split. by exists 0%nat. }
  destruct (Path.reduce inherited h root _) as [target| |]; try done.
  destruct (set_prop h target _ x) as [h1| |] eqn:Hset; try done.
  intros [= <- <-].
  apply set_prop_ok in Hset as (l & o & o' & -> & Hl & -> & Hkind).
  split; [done|]. split; [apply length_insert|]. split.
  - intros [| | | | |l']; try done. unfold isArray.
    destruct (decide (l' = l)) as [->|Hne].
    + assert (Hnew : <[l := o']> h !! l = Some o').
      { apply list_lookup_insert_eq. by eapply lookup_lt_Some. }
      rewrite Hnew, Hl. by destruct o, o'.
    + assert (Hold : <[l := o']> h !! l' = h !! l').
      { by apply list_lookup_insert_ne. }
      by rewrite Hold.
  - exists l. intros l' Hne. by apply list_lookup_insert_ne.
Qed.




Lemma digit_char (c : ascii) :
  is_digit c = true ->
  pretty_N_char (N.of_nat (nat_of_ascii c - 48)) = c
  /\ (N.of_nat (nat_of_ascii c - 48) < 10)%N.
Proof.
  destruct c as [[] [] [] [] [] [] [] []]; vm_compute; try done.
  all: by split.
Qed.

Lemma parse_digits_pos (s : string) :
  forall acc, (0 < acc)%N -> (0 < parse_digits acc s)%N.
Proof.
  induction s as [|c s IH]; intros acc Hacc; simpl; [done|].
  apply IH. lia.
Qed.

Lemma parse_pretty_go (s : string) :
  forall (acc : N) (t : string),
  all_digits s = true -> (0 < acc)%N ->
  pretty_N_go (parse_digits acc s) t = pretty_N_go acc (s +:+ t).
Proof.
  induction s as [|c s IH]; intros acc t Hs Hacc; simpl in *; [done|].
  apply andb_prop in Hs as [Hc Hs].
  destruct (digit_char c Hc) as [Hchar Hlt].
  rewrite IH by (done || lia).
  rewrite pretty_N_go_step by lia.
  set (d := N.of_nat (nat_of_ascii c - 48)) in *.
  replace ((10 * acc + d) `div` 10)%N with acc.
  2: { apply (N.div_unique _ 10 acc d); lia. }
  replace ((10 * acc + d) `mod` 10)%N with d.
  2: { apply (N.mod_unique _ 10 acc d); lia. }
  by rewrite Hchar.
Qed.

(** An array index is the decimal form of the number it parses to. *)
Lemma array_index_pretty (key : string) (n : nat) :
  array_index key = Some n -> key = pretty (parseInt key).
Proof.
  unfold array_index, digits_only, parseInt.
  destruct key as [|c s]; [done|]. simpl.
  destruct (is_digit c) eqn:Hc; [|done]. simpl.
  destruct (all_digits s) eqn:Hs; [|done]. simpl.
  destruct (digit_char c Hc) as [Hchar Hlt].
  set (d := N.of_nat (nat_of_ascii c - 48)) in *.
  intros Hguard.
  destruct (decide (d = 0%N)) as [Hd|Hd].
  - assert (c = "0"%char) as ->.
    { rewrite <- Hchar, Hd. done. }
    destruct s as [|c' s]; [done|]. by simpl in Hguard.
  - unfold pretty, pretty_N.
    replace (10 * 0 + d)%N with d by lia.
    assert (0 < parse_digits d s)%N by (apply parse_digits_pos; lia).
    destruct (decide (parse_digits d s = 0%N)); [lia|].
    rewrite (parse_pretty_go s d EmptyString) by (done || lia).
    rewrite pretty_N_go_step by lia.
    replace (d `div` 10)%N with 0%N by (symmetry; apply N.div_small; lia).
    replace (d `mod` 10)%N with d by (symmetry; apply N.mod_small; lia).
    rewrite pretty_N_go_0, Hchar.
    f_equal. clear. induction s as [|a s IH]; [done|].
    change (String a s +:+ EmptyString)
      with (String a (s +:+ EmptyString)). by f_equal.
Qed.

Lemma array_index_inj (key key' : string) (n : nat) :
  array_index key = Some n -> array_index key' = Some n -> key = key'.
Proof.
  intros Hk Hk'.
  rewrite (array_index_pretty key n Hk), (array_index_pretty key' n Hk').
  f_equal. unfold array_index in *.
  destruct (_ && _ && _); [|done]. destruct (_ && _ && _); [|done].
  injection Hk as Hk. injection Hk' as Hk'. lia.
Qed.

Lemma read_write_other (elems : list (option value)) (n n' : nat)
    (x : value) :
  n' <> n -> read_elem (write_elem elems n x) n' = read_elem elems n'.
Proof.
  intros Hne. unfold read_elem, write_elem.
  destruct (Nat.ltb_spec n (length elems)) as [Hin|Hout].
  - by rewrite list_lookup_insert_ne.
  - destruct (decide (n' < length elems)%nat) as [Hlt|Hge].
    + by rewrite lookup_app_l.
    + rewrite (lookup_ge_None_2 elems n') by lia.
      rewrite lookup_app_r by lia.
      destruct (decide (n' < n)%nat) as [Hgap|Hpast].
      * rewrite lookup_app_l by (rewrite length_replicate; lia).
        rewrite lookup_replicate_2 by lia. done.
      * rewrite lookup_app_r by (rewrite length_replicate; lia).
        rewrite length_replicate.
        rewrite lookup_ge_None_2; [done|]. simpl. lia.
Qed.

(** After an assignment in a container, reading another plain key of it
    gives what it gave before. *)
Lemma set_prop_other_step (h h' : heap) (l : loc) (key key' : string)
    (x : value) :
  set_prop h (VRef l) key x = Ok h' ->
  key' <> key ->
  canonical h l key' = true ->
  assignable h l key' = true ->
  Path.get_step inherited h' (VRef l) key'
    = Path.get_step inherited h (VRef l) key'.
Proof.
  intros Hset Hne Hcanon Hplain.
  assert (Hcanon' : canonical h' l key' = true).
  { apply set_prop_ok in Hset as (l0 & o & o' & [= <-] & Hl & -> & Hkind).
    unfold canonical in *.
    assert (Hnew : <[l := o']> h !! l = Some o').
    { apply list_lookup_insert_eq. by eapply lookup_lt_Some. }
    rewrite Hnew. rewrite Hl in Hcanon. by destruct o, o'. }
  rewrite !get_step_canonical by done.
  unfold set_prop in Hset. unfold assignable in Hplain. unfold get_prop.
  destruct (h !! l) as [[props|elems props]|] eqn:Hl; [| |done].
  - destruct (String.eqb key "__proto__"); [done|]. injection Hset as <-.
    assert (Hnew : <[l := Obj (<[key := x]> props)]> h !! l
                   = Some (Obj (<[key := x]> props))).
    { apply list_lookup_insert_eq. by eapply lookup_lt_Some. }
    rewrite Hnew. by rewrite lookup_insert_ne.
  - destruct (array_index key) as [n|] eqn:Hindex.
    + injection Hset as <-.
      assert (Hnew : <[l := Arr (write_elem elems n x) props]> h !! l
                     = Some (Arr (write_elem elems n x) props)).
      { apply list_lookup_insert_eq. by eapply lookup_lt_Some. }
      rewrite Hnew.
      destruct (array_index key') as [n'|] eqn:Hindex'.
      * rewrite read_write_other; [done|]. intros ->.
        apply Hne. by apply (array_index_inj key' key n).
      * rewrite bool_decide_eq_false_2 in Hplain by (by intros [? ?]).
        simpl in Hplain. apply negb_true_iff, orb_false_elim in Hplain
          as [-> _]. done.
    + destruct (_ || _); [done|]. injection Hset as <-.
      assert (Hnew : <[l := Arr elems (<[key := x]> props)]> h !! l
                     = Some (Arr elems (<[key := x]> props))).
      { apply list_lookup_insert_eq. by eapply lookup_lt_Some. }
      rewrite Hnew.
      destruct (array_index key'); [done|].
      destruct (String.eqb key' "length"); [done|].
      by rewrite lookup_insert_ne.
Qed.

(** X8.  Assigning at one path leaves the neighbours readable as before: a
    path that differs from the assigned one in its last segment only reads
    the same value after [set] as before it. *)
Theorem set_leaves_siblings (h h' : heap) (root : value)
    (path path' : string) (x : value) (locs : list loc) :
  removelast (Path.split path') = removelast (Path.split path) ->
  List.last (Path.split path') EmptyString
    <> List.last (Path.split path) EmptyString ->
  walk inherited h root (removelast (Path.split path)) = Some locs ->
  NoDup locs ->
  all_canonical h locs (Path.split path') = true ->
  assignable h (List.last locs 0%nat)
             (List.last (Path.split path') EmptyString) = true ->
  Path.set inherited h root path x = Ok (root, h') ->
  Path.get inherited h' root path' = Path.get inherited h root path'.
Proof.
  intros Hinit Hlast Hwalk Hdup Hcanon Hplain Hset.
  destruct (walk_reduce _ _ _ _ _ Hwalk)
    as (before & target & -> & Hreduce & Hsome).
  rewrite last_last in Hplain.
  apply NoDup_app in Hdup as (_ & Hfresh & _).
  assert (Hlen : length before = length (removelast (Path.split path))).
  { apply walk_length in Hwalk. rewrite length_app in Hwalk.
    simpl in Hwalk. lia. }
  rewrite (split_snoc path'), Hinit, all_canonical_app in Hcanon by done.
  apply andb_prop in Hcanon as [Hbefore Hlast'].
  simpl in Hlast'. rewrite andb_true_r in Hlast'.
  assert (Hnot : target ∉ before).
  { intros Hin. by apply (Hfresh target Hin), list_elem_of_singleton. }
  unfold Path.set in Hset.
  destruct (String.eqb path EmptyString); [by injection Hset as <-|].
  rewrite Hreduce in Hset.
  destruct (set_prop h (VRef target) _ x) as [h1| |] eqn:Hprop; try done.
  injection Hset as <-.
  assert (Hsame : forall l, l <> target -> h1 !! l = h !! l).
  { apply set_prop_ok in Hprop as (l0 & o & o' & [= <-] & _ & -> & _).
    intros l Hne. by apply list_lookup_insert_ne. }
  unfold Path.get. rewrite (split_snoc path'), Hinit.
  rewrite (get_loop_snoc inherited h1 _ _ root (VRef target)).
  2: { by apply (get_loop_walk inherited h h1 target _ Hsame root before). }
  rewrite (get_loop_snoc inherited h _ _ root (VRef target)).
  2: { by apply (get_loop_walk inherited h h target _ (fun _ _ => eq_refl)
                   root before). }
  simpl. by rewrite (set_prop_other_step h h1 target _ _ x Hprop).
Qed.
End PathLaws.

(** ** Laws of the form engine *)

Section EngineLaws.
Import Js Form Spec Laws.
Variable inherited : prototypes.
Variable props : Props.CreateFormProps.

(** Runs the plumbing of the engine monad, as [engine_cbv] does. *)
Ltac engine_run :=
  cbv [detach bind modify ret gets try_finally
       await suspend revalidate setFormStatus
       on_store record report
       setStateInternal assign_initialState
       setUndoRedoManager setErrors setFieldStatuses
       _setFieldStatus log_submission fst snd
       store state undoRedoManager errors
       formStatus fieldStatuses
       initialState submitted snapshots].
Ltac engine_run_in H :=
  cbv [detach bind modify ret gets try_finally
       await suspend revalidate setFormStatus
       on_store record report
       setStateInternal assign_initialState
       setUndoRedoManager setErrors setFieldStatuses
       _setFieldStatus log_submission fst snd
       store state undoRedoManager errors
       formStatus fieldStatuses
       initialState submitted snapshots] in H.

Lemma setState_tip (next : value) (m : UndoRedo.manager) :
  1 <= UndoRedo.maxHistorySize m -> bounded m ->
  UndoRedo.currentIndex (UndoRedo.state (UndoRedo.setState next m))
  = Z.of_nat (length (UndoRedo.history
                        (UndoRedo.state (UndoRedo.setState next m)))) - 1.
Proof.
  intros Hmax [Hi Hlen].
  rewrite setState_length, setState_index by lia. lia.
Qed.

(** The engine depends on its history through two cells only. *)
Lemma in_sync_cells (e e' : engine) :
  state e' = state e -> undoRedoManager e' = undoRedoManager e ->
  in_sync e -> in_sync e'.
Proof.
  intros Hs Hm (m & ? & ? & ? & ? & ?). exists m.
  rewrite Hs, Hm. done.
Qed.

Lemma in_sync_recorded (e : engine) (next : value) (m : UndoRedo.manager) :
  bounded m -> 1 <= UndoRedo.maxHistorySize m ->
  state e = next ->
  undoRedoManager e = Some (UndoRedo.setState next m) ->
  in_sync e.
Proof.
  intros Hb Hmax Hs Hm. exists (UndoRedo.setState next m).
  split; [done|]. split; [by apply setState_bounded|].
  split; [done|]. split; [by apply setState_tip|].
  rewrite Hs. by apply setState_last.
Qed.

(** What [setState] leaves in the two cells. *)
Lemma setState_cells (update : Update) (e : engine) :
  let e' := snd (setState props update e) in
  match getUpdatedValue (state e) update (store e) with
  | (Ok next, _) =>
      state e' = next
      /\ undoRedoManager e'
         = option_map (UndoRedo.setState next) (undoRedoManager e)
  | _ => state e' = state e /\ undoRedoManager e' = undoRedoManager e
  end.
Proof.
  destruct e as [h st man err fs fss ini sub snaps].
  unfold setState. engine_run.
  destruct (getUpdatedValue st update h) as [[next|x|] h1]; [|done..].
  destruct (Props.schema props h1 next) as [[data|flattened]|x|]; done.
Qed.

Lemma setState_sync (update : Update) (e : engine) :
  in_sync e -> in_sync (snd (setState props update e)).
Proof.
  intros Hsync. pose proof (setState_cells update e) as Hcells.
  simpl in Hcells.
  destruct (getUpdatedValue (state e) update (store e)) as [[next|x|] h1].
  - destruct Hsync as (m & Hm & Hb & Hmax & _ & _).
    destruct Hcells as [Hs Hm']. rewrite Hm in Hm'.
    by eapply in_sync_recorded.
  - destruct Hcells. by eapply in_sync_cells.
  - destruct Hcells. by eapply in_sync_cells.
Qed.

(** The engine's [undo] moves the index of the manager and then records the
    entry it found as a new state. *)
Lemma undo_cells (steps : option Z) (e : engine) (m : UndoRedo.manager) :
  undoRedoManager e = Some m ->
  let e' := snd (undo props steps e) in
  let found := UndoRedo.undo steps m in
  state e' = fst found
  /\ undoRedoManager e' = Some (UndoRedo.setState (fst found) (snd found)).
Proof.
  intros Hm.
  cbv [undo bind gets await suspend modify setUndoRedoManager].
  rewrite Hm. cbv [UndoRedo.undo].
  match goal with
  | |- context [setState props ?u ?e0] =>
      pose proof (setState_cells u e0) as Hcells
  end.
  cbv [getUpdatedValue ret] in Hcells. exact Hcells.
Qed.

Lemma redo_cells (steps : option Z) (e : engine) (m : UndoRedo.manager) :
  undoRedoManager e = Some m ->
  let e' := snd (redo props steps e) in
  let found := UndoRedo.redo steps m in
  state e' = fst found
  /\ undoRedoManager e' = Some (UndoRedo.setState (fst found) (snd found)).
Proof.
  intros Hm.
  cbv [redo bind gets await suspend modify setUndoRedoManager].
  rewrite Hm. cbv [UndoRedo.redo].
  match goal with
  | |- context [setState props ?u ?e0] =>
      pose proof (setState_cells u e0) as Hcells
  end.
  cbv [getUpdatedValue ret] in Hcells. exact Hcells.
Qed.

Lemma undo_sync (steps : option Z) (e : engine) :
  0 <= UndoRedo.default_steps steps ->
  in_sync e -> in_sync (snd (undo props steps e)).
Proof.
  intros Hsteps (m & Hm & Hb & Hmax & Htip & Hcur).
  destruct (undo_cells steps e m Hm) as [Hs Hm'].
  eapply in_sync_recorded; [| |exact Hs|exact Hm']; [|done].
  by apply (apply_bounded m (Undo steps)).
Qed.

Lemma redo_sync (steps : option Z) (e : engine) :
  0 <= UndoRedo.default_steps steps ->
  in_sync e -> in_sync (snd (redo props steps e)).
Proof.
  intros Hsteps (m & Hm & Hb & Hmax & Htip & Hcur).
  destruct (redo_cells steps e m Hm) as [Hs Hm'].
  eapply in_sync_recorded; [| |exact Hs|exact Hm']; [|done].
  by apply (apply_bounded m (Redo steps)).
Qed.

(** [submit] leaves the state, the history and the errors alone. *)
Lemma submit_cells (e : engine) :
  let e' := snd (submit props e) in
  state e' = state e /\ undoRedoManager e' = undoRedoManager e
  /\ errors e' = errors e /\ initialState e' = initialState e.
Proof.
  destruct e as [h st man err fs fss ini sub snaps].
  unfold submit. engine_run.
  destruct (Props.schema props h st) as [[data|flattened]|x|]; [|done..].
  destruct (Props.onSubmit props data h) as [[[]|x|] h1]; done.
Qed.

Lemma reset_cells (e : engine) :
  let e' := snd (reset props e) in
  match getInitialValue (Props.initialState props) (store e) with
  | (Ok v, _) =>
      state e' = v
      /\ undoRedoManager e'
         = option_map (UndoRedo.setState v) (undoRedoManager e)
  | _ => state e' = state e /\ undoRedoManager e' = undoRedoManager e
  end.
Proof.
  destruct e as [h st man err fs fss ini sub snaps].
  cbv [reset bind await suspend modify on_store store state undoRedoManager
       errors formStatus fieldStatuses initialState submitted snapshots].
  destruct (getInitialValue _ h) as [[v|x|] h1]; cbv beta iota; [|done..].
  match goal with
  | |- context [setState props ?u ?e0] =>
      pose proof (setState_cells u e0) as Hcells;
      cbv [getUpdatedValue ret] in Hcells;
      destruct (setState props u e0) as [r e1]
  end.
  engine_run. engine_run_in Hcells. exact Hcells.
Qed.

Lemma reset_sync (e : engine) :
  in_sync e -> in_sync (snd (reset props e)).
Proof.
  intros Hsync. pose proof (reset_cells e) as Hcells. simpl in Hcells.
  destruct (getInitialValue _ (store e)) as [[v|x|] h1].
  - destruct Hsync as (m & Hm & Hb & Hmax & _ & _).
    destruct Hcells as [Hs Hm']. rewrite Hm in Hm'.
    by eapply in_sync_recorded.
  - destruct Hcells. by eapply in_sync_cells.
  - destruct Hcells. by eapply in_sync_cells.
Qed.

(** [setFieldValue] either leaves the two cells alone or records the root
    it was given, which is the state itself. *)
Lemma setFieldValue_core (path : string) (update : Update) (e : engine) :
  let e' := snd (setFieldValue inherited props path update e) in
  state e' = state e
  /\ (undoRedoManager e' = undoRedoManager e
      \/ undoRedoManager e'
         = option_map (UndoRedo.setState (state e)) (undoRedoManager e)).
Proof.
  destruct e as [h st man err fs fss ini sub snaps].
  unfold setFieldValue. engine_run.
  destruct (Path.get inherited h st path) as [current|x|]; engine_run;
    [|by auto..].
  destruct (getUpdatedValue current update h) as [[x|x|] h1]; engine_run;
    [|by auto..].
  destruct (truthy st); engine_run; [|by auto].
  destruct (Path.set inherited h1 st path x) as [[root h2]|x'|] eqn:Hset;
    engine_run; [|by auto..].
  assert (root = st) as ->.
  { unfold Path.set in Hset.
    destruct (String.eqb path EmptyString); [congruence|].
    destruct (Path.reduce inherited h1 st _) as [target|x'|]; [|done..].
    destruct (set_prop h1 target _ x) as [h3|x'|]; congruence. }
  match goal with
  | |- context [setState props ?u ?e0] =>
      pose proof (setState_cells u e0) as Hcells;
      cbv [getUpdatedValue ret] in Hcells;
      destruct (setState props u e0) as [[[]|?|] e1]
  end; engine_run; engine_run_in Hcells; destruct Hcells as [Hs Hm];
    (split; [exact Hs | right; exact Hm]).
Qed.

Lemma setFieldValue_sync (path : string) (update : Update) (e : engine) :
  in_sync e -> in_sync (snd (setFieldValue inherited props path update e)).
Proof.
  intros Hsync.
  destruct (setFieldValue_core path update e) as [Hs [Hm'|Hm']].
  - by eapply in_sync_cells.
  - destruct Hsync as (m & Hm & Hb & Hmax & _ & _). rewrite Hm in Hm'.
    by eapply in_sync_recorded.
Qed.

Lemma perform_sync (a : action) (e : engine) :
  forward a -> in_sync e -> in_sync (snd (perform inherited props a e)).
Proof.
  intros Ha Hsync. destruct a; simpl in *.
  - by apply setState_sync.
  - by apply setFieldValue_sync.
  - destruct (submit_cells e) as (? & ? & _). by eapply in_sync_cells.
  - by apply reset_sync.
  - by apply undo_sync.
  - by apply redo_sync.
Qed.

Lemma after_all_sync (actions : list action) :
  forall e, Forall forward actions -> in_sync e ->
  in_sync (after_all inherited props actions e).
Proof.
  induction actions as [|a actions IH]; intros e Hall Hsync; [done|].
  inversion Hall as [|? ? Ha Hrest]; subst. simpl.
  apply IH; [done|]. by apply perform_sync.
Qed.

(** The cells that [createForm] fills once the initializer has settled. *)
Lemma createForm_settled (h h1 : heap) (v : value) :
  getInitialValue (Props.initialState props) h = (Ok v, h1) ->
  let e := createForm props h in
  state e = v /\ initialState e = v
  /\ undoRedoManager e
     = Some (UndoRedo.createUndoRedoManager v (Props.undoLimit props))
  /\ formStatus e !! "initializing" = Some false.
Proof.
  intros Hinit. unfold createForm, initializeState, blank. engine_run.
  rewrite Hinit.
  destruct (Props.schema props h1 v) as [[data|flattened]|x|];
    repeat split; by simplify_map_eq.
Qed.

(** Recording the current entry once more and going back one step lands on
    an equal entry. *)
Lemma undo_after_duplicate (m : UndoRedo.manager) :
  bounded m -> 1 <= UndoRedo.maxHistorySize m ->
  fst (UndoRedo.undo None
         (UndoRedo.setState (UndoRedo.getCurrentState m) m))
  = UndoRedo.getCurrentState m.
Proof.
  intros Hb Hmax. pose proof Hb as [Hi Hlen].
  unfold UndoRedo.undo. cbn [fst].
  rewrite setState_index, setState_history by done.
  unfold UndoRedo.getCurrentState, UndoRedo.entry, UndoRedo.default_steps.
  destruct m as [[hist idx] max]. simpl in *.
  destruct (Z.ltb_spec idx 0); [lia|].
  destruct (hist !! Z.to_nat idx) as [c|] eqn:Hc.
  2: { apply lookup_ge_None in Hc. lia. }
  destruct (Z.ltb_spec (0 `max` ((idx + 1) `min` (max - 1) - 1)) 0); [lia|].
  rewrite lookup_drop.
  destruct (Z.le_gt_cases (idx + 2) max) as [Hroom|Hfull].
  - replace (_ + _)%nat with (Z.to_nat idx) by lia.
    rewrite lookup_app_l by (rewrite length_take; lia).
    rewrite lookup_take_lt by lia. by rewrite Hc.
  - assert (max = idx + 1) as -> by lia.
    destruct (decide (idx = 0)) as [->|Hpos].
    + destruct hist as [|c0 rest]; [done|]. by simplify_eq/=.
    + replace (_ + _)%nat with (Z.to_nat idx) by lia.
      rewrite lookup_app_l by (rewrite length_take; lia).
      rewrite lookup_take_lt by lia. by rewrite Hc.
Qed.

(** Going back one step from an entry recorded at the tip of the history
    finds the entry that was current before, when two entries fit. *)
Lemma undo_after_setState (next : value) (m : UndoRedo.manager) :
  bounded m -> 2 <= UndoRedo.maxHistorySize m ->
  UndoRedo.currentIndex (UndoRedo.state m)
    = Z.of_nat (length (UndoRedo.history (UndoRedo.state m))) - 1 ->
  fst (UndoRedo.undo None (UndoRedo.setState next m))
  = UndoRedo.getCurrentState m.
Proof.
  intros Hb Hmax Htip. pose proof Hb as [Hi Hlen].
  unfold UndoRedo.undo. cbn [fst].
  rewrite setState_index, setState_history by (done || lia).
  unfold UndoRedo.getCurrentState, UndoRedo.entry, UndoRedo.default_steps.
  destruct m as [[hist idx] max]. simpl in *.
  destruct (Z.ltb_spec idx 0); [lia|].
  destruct (hist !! Z.to_nat idx) as [c|] eqn:Hc.
  2: { apply lookup_ge_None in Hc. lia. }
  destruct (Z.ltb_spec (0 `max` ((idx + 1) `min` (max - 1) - 1)) 0); [lia|].
  rewrite lookup_drop.
  replace (_ + _)%nat with (Z.to_nat idx) by lia.
  rewrite lookup_app_l by (rewrite length_take; lia).
  rewrite lookup_take_lt by lia. by rewrite Hc.
Qed.

(** X9.  Every engine whose initializer has settled keeps, through any
    series of calls, a history within its bounds whose last entry is the
    current one and is the state of the engine. *)
Theorem engine_in_sync (h h1 : heap) (v : value) (actions : list action) :
  getInitialValue (Props.initialState props) h = (Ok v, h1) ->
  (forall limit, Props.undoLimit props = Some limit -> 1 <= limit) ->
  Forall forward actions ->
  in_sync (after_all inherited props actions (createForm props h)).
Proof.
  intros Hinit Hlimit Hall. apply after_all_sync; [done|].
  destruct (createForm_settled h h1 v Hinit) as (Hs & _ & Hm & _).
  eexists. split; [exact Hm|]. rewrite Hs.
  unfold bounded, UndoRedo.createUndoRedoManager; simpl.
  destruct (Props.undoLimit props) as [limit|] eqn:Hl.
  - specialize (Hlimit limit eq_refl). repeat split; lia.
  - repeat split; lia.
Qed.

(** X10.  On an engine in step with its history nothing can be redone, and
    [redo] leaves the state where it is. *)
Theorem redo_is_idle (steps : option Z) (e : engine) :
  in_sync e ->
  0 <= UndoRedo.default_steps steps ->
  state (snd (redo props steps e)) = state e
  /\ (1 <= UndoRedo.default_steps steps -> canRedo steps e = false).
Proof.
  intros (m & Hm & Hb & Hmax & Htip & Hcur) Hsteps.
  destruct (redo_cells steps e m Hm) as [Hs _]. rewrite Hs, <- Hcur.
  unfold canRedo. rewrite Hm.
  unfold UndoRedo.canRedo, UndoRedo.getCurrentState, UndoRedo.redo.
  cbn [fst].
  replace (_ `min` _) with (UndoRedo.currentIndex (UndoRedo.state m))
    by lia.
  split; [done|]. lia.
Qed.


(** X12.  [setState] can be taken back: when the history keeps two entries
    or more, [undo()] after a [setState] that went through returns the
    engine to the state before it. *)
Theorem setState_undo (update : Update) (e : engine) (next : value)
    (h1 : heap) :
  in_sync e ->
  (forall m, undoRedoManager e = Some m -> 2 <= UndoRedo.maxHistorySize m) ->
  getUpdatedValue (state e) update (store e) = (Ok next, h1) ->
  let e1 := snd (setState props update e) in
  state e1 = next /\ canUndo None e1 = true
  /\ state (snd (undo props None e1)) = state e.
Proof.
  intros (m & Hm & Hb & Hmax & Htip & Hcur) Hroom Hupdate e1. subst e1.
  specialize (Hroom m Hm).
  pose proof (setState_cells update e) as Hcells. simpl in Hcells.
  rewrite Hupdate, Hm in Hcells. destruct Hcells as [Hs Hm'].
  split; [done|]. split.
  - unfold canUndo. rewrite Hm'. simpl. unfold UndoRedo.canUndo.
    rewrite setState_index. destruct Hb. simpl. lia.
  - destruct (undo_cells None _ _ Hm') as [Hs' _]. rewrite Hs', <- Hcur.
    by apply undo_after_setState.
Qed.
Lemma status_of_insert (prev : gmap string (gmap string bool))
    (path : string) (status : gmap string bool) :
  status_of inherited (<[path := status]> prev) path = status.
Proof. unfold status_of. by rewrite lookup_insert_eq. Qed.

Ltac status_case :=
  split; [|split];
    [ rewrite lookup_insert_eq, status_of_insert; simpl;
      by rewrite lookup_insert_eq
    | rewrite lookup_insert_eq, status_of_insert;
      by rewrite insert_insert_eq
    | intros other Hother; by rewrite !lookup_insert_ne ].

(** The cells that [setState] never writes. *)
Lemma setState_frame (update : Update) (e : engine) :
  let e' := snd (setState props update e) in
  fieldStatuses e' = fieldStatuses e /\ initialState e' = initialState e
  /\ submitted e' = submitted e.
Proof.
  destruct e as [h st man err fs fss ini sub snaps].
  unfold setState. engine_run.
  destruct (getUpdatedValue st update h) as [[next|x|] h1]; [|done..].
  destruct (Props.schema props h1 next) as [[data|flattened]|x|]; done.
Qed.

(** X13.  An update that fails is passed on to the caller and changes
    neither the state nor the history nor the errors; the schema is not
    asked. *)
Theorem setState_rejected (update : Update) (e : engine) (x : exn)
    (h1 : heap) :
  getUpdatedValue (state e) update (store e) = (Throw x, h1) ->
  let result := setState props update e in
  fst result = Throw x
  /\ state (snd result) = state e
  /\ undoRedoManager (snd result) = undoRedoManager e
  /\ errors (snd result) = errors e
  /\ store (snd result) = h1
  /\ formStatus (snd result) !! "isSettingState" = Some false
  /\ formStatus (snd result) !! "validating" = formStatus e !! "validating".
Proof.
  destruct e as [h st man err fs fss ini sub snaps].
  unfold setState. engine_run. intros ->.
  repeat split; by simplify_map_eq.
Qed.

(** X14.  What the validation that follows an update does to the form. *)
Theorem setState_validation (update : Update) (e : engine) (next : value)
    (h1 : heap) :
  getUpdatedValue (state e) update (store e) = (Ok next, h1) ->
  let result := setState props update e in
  state (snd result) = next
  /\ undoRedoManager (snd result)
     = option_map (UndoRedo.setState next) (undoRedoManager e)
  /\ match Props.schema props h1 next with
     | Ok (ParseSuccess _) =>
         fst result = Ok tt
         /\ errors (snd result) = errors e
         /\ formStatus (snd result) !! "validating" = Some false
     | Ok (ParseFailure flattened) =>
         fst result = Ok tt
         /\ errors (snd result) = flattened
         /\ formStatus (snd result) !! "validating" = Some false
     | Throw x =>
         fst result = Throw x
         /\ errors (snd result) = errors e
         /\ formStatus (snd result) !! "validating" = Some true
     | Unsupported => fst result = Unsupported
     end.
Proof.
  destruct e as [h st man err fs fss ini sub snaps].
  unfold setState. engine_run. intros ->.
  destruct (Props.schema props h1 next) as [[data|flattened]|x|];
    repeat split; by simplify_map_eq.
Qed.

(** X15.  Whatever happens inside, [setFieldValue] leaves [isSettingValue]
    of its path false and touches the status of no other path.  The status
    of the path is otherwise the one that [_setFieldStatus] starts from: the
    flags the path had; both flags false when it had none; and, when the
    path had none but is a name that the prototype chain of the record
    supplies ([toString], say), [isSettingValue] alone. *)
Theorem setFieldValue_releases (path : string) (update : Update)
    (e : engine) :
  let e' := snd (setFieldValue inherited props path update e) in
  fieldStatuses e' !! path ≫= (.!! "isSettingValue") = Some false
  /\ fieldStatuses e' !! path
     = Some (<["isSettingValue" := false]>
               (status_of inherited (fieldStatuses e) path))
  /\ forall other, other <> path ->
       fieldStatuses e' !! other = fieldStatuses e !! other.
Proof.
  destruct e as [h st man err fs fss ini sub snaps].
  unfold setFieldValue. engine_run.
  destruct (Path.get inherited h st path) as [current|x|]; engine_run;
    [|status_case..].
  destruct (getUpdatedValue current update h) as [[x|x|] h1]; engine_run;
    [|status_case..].
  destruct (truthy st); engine_run; [|status_case].
  destruct (Path.set inherited h1 st path x) as [[root h2]|x'|];
    engine_run; [|status_case..].
  match goal with
  | |- context [setState props ?u ?e0] =>
      pose proof (setState_frame u e0) as Hframe;
      destruct (setState props u e0) as [[[]|?|] e1]
  end; engine_run; engine_run_in Hframe; destruct Hframe as [-> _];
    status_case.
Qed.

Lemma get_nullish (h : heap) (obj : value) (path : string) :
  obj = VNull \/ obj = VUndefined ->
  Path.get inherited h obj path = Throw TypeError.
Proof.
  intros Hobj. unfold Path.get.
  destruct (split_cons path) as (key & keys & ->).
  by destruct Hobj as [-> | ->].
Qed.

(** X16.  While the state is falsy, [setFieldValue] writes nothing: state,
    history and errors stay; on [null] and [undefined] it throws before the
    update is looked at. *)
Theorem setFieldValue_falsy_state (path : string) (update : Update)
    (e : engine) :
  truthy (state e) = false ->
  let result := setFieldValue inherited props path update e in
  state (snd result) = state e
  /\ undoRedoManager (snd result) = undoRedoManager e
  /\ errors (snd result) = errors e
  /\ (state e = VNull \/ state e = VUndefined ->
      fst result = Throw TypeError /\ store (snd result) = store e).
Proof.
  destruct e as [h st man err fs fss ini sub snaps].
  unfold setFieldValue. engine_run. intros Hfalsy.
  destruct (Path.get inherited h st path) as [current|x|] eqn:Hget;
    engine_run.
  - destruct (getUpdatedValue current update h) as [[x|x|] h1]; engine_run;
      rewrite ?Hfalsy; engine_run.
    all: do 3 (split; [done|]).
    all: intros Hnull; rewrite (get_nullish h st path Hnull) in Hget; done.
  - do 3 (split; [done|]).
    intros Hnull; rewrite (get_nullish h st path Hnull) in Hget.
    by simplify_eq.
  - do 3 (split; [done|]).
    intros Hnull; rewrite (get_nullish h st path Hnull) in Hget; done.
Qed.


(** X18.  [reset] asks the initializer again: the state becomes what it
    gives now and is recorded as a new entry, and the initial state that the
    engine keeps stays the one of the creation. *)
Theorem reset_runs_initializer (e : engine) (v : value) (h1 : heap) :
  getInitialValue (Props.initialState props) (store e) = (Ok v, h1) ->
  let e' := snd (reset props e) in
  state e' = v
  /\ initialState e' = initialState e
  /\ undoRedoManager e'
     = option_map (UndoRedo.setState v) (undoRedoManager e).
Proof.
  destruct e as [h st man err fs fss ini sub snaps].
  cbv [reset bind await suspend modify on_store store state undoRedoManager
       errors formStatus fieldStatuses initialState submitted snapshots].
  intros ->. cbv beta iota.
  match goal with
  | |- context [setState props ?u ?e0] =>
      pose proof (setState_cells u e0) as Hcells;
      pose proof (setState_frame u e0) as Hframe;
      cbv [getUpdatedValue ret] in Hcells;
      destruct (setState props u e0) as [r e1]
  end.
  engine_run. engine_run_in Hcells. engine_run_in Hframe.
  destruct Hcells as [Hs Hm]. destruct Hframe as (_ & Hi & _).
  split; [exact Hs|]. split; [exact Hi | exact Hm].
Qed.

(** X19.  The form that [createForm] makes once its initializer has settled:
    the value is the state and the initial state, the history holds it as
    its only entry, nothing can be undone or redone, and the errors are
    those of the first validation. *)
Theorem createForm_initial (h h1 : heap) (v : value) :
  getInitialValue (Props.initialState props) h = (Ok v, h1) ->
  let e := createForm props h in
  state e = v /\ initialState e = v /\ store e = h1
  /\ undoRedoManager e
     = Some (UndoRedo.createUndoRedoManager v (Props.undoLimit props))
  /\ canUndo None e = false /\ canRedo None e = false
  /\ formStatus e !! "initializing" = Some false
  /\ errors e
     = match Props.schema props h1 v with
       | Ok (ParseFailure flattened) => flattened
       | _ => errors (blank h)
       end.
Proof.
  intros Hinit. unfold createForm, initializeState, blank, canUndo, canRedo.
  engine_run. rewrite Hinit.
  destruct (Props.schema props h1 v) as [[data|flattened]|x|];
    repeat split; by simplify_map_eq.
Qed.

Lemma perform_none (a : action) (e : engine) :
  undoRedoManager e = None ->
  undoRedoManager (snd (perform inherited props a e)) = None.
Proof.
  intros Hnone. destruct a; simpl.
  - pose proof (setState_cells update e) as Hcells. simpl in Hcells.
    destruct (getUpdatedValue _ _ _) as [[next|x|] h1];
      destruct Hcells as [_ ->]; by rewrite Hnone.
  - destruct (setFieldValue_core path update e)
      as [_ [-> | ->]]; by rewrite Hnone.
  - destruct (submit_cells e) as (_ & -> & _). done.
  - pose proof (reset_cells e) as Hcells. simpl in Hcells.
    destruct (getInitialValue _ _) as [[next|x|] h1];
      destruct Hcells as [_ ->]; by rewrite Hnone.
  - unfold undo, bind, gets. by rewrite Hnone.
  - unfold redo, bind, gets. by rewrite Hnone.
Qed.

Lemma after_all_none (actions : list action) :
  forall e, undoRedoManager e = None ->
  undoRedoManager (after_all inherited props actions e) = None.
Proof.
  induction actions as [|a actions IH]; intros e Hnone; [done|].
  simpl. apply IH. by apply perform_none.
Qed.

(** X20.  A form whose initializer failed has the state [null] and no
    history, and no later call gives it one: nothing can be undone or
    redone, and [undo] and [redo] return without doing anything. *)
Theorem failed_initializer (h h1 : heap) (x : exn) (actions : list action)
    (steps : option Z) :
  getInitialValue (Props.initialState props) h = (Throw x, h1) ->
  state (createForm props h) = VNull
  /\ formStatus (createForm props h) !! "initializing" = Some false
  /\ let e := after_all inherited props actions (createForm props h) in
     undoRedoManager e = None
     /\ canUndo steps e = false /\ canRedo steps e = false
     /\ undo props steps e = (Ok tt, e)
     /\ redo props steps e = (Ok tt, e).
Proof.
  intros Hinit.
  assert (Hcreated : state (createForm props h) = VNull
            /\ formStatus (createForm props h) !! "initializing" = Some false
            /\ undoRedoManager (createForm props h) = None).
  { unfold createForm, initializeState, blank. engine_run. rewrite Hinit.
    repeat split; by simplify_map_eq. }
  destruct Hcreated as (Hs & Hf & Hnone).
  split; [done|]. split; [done|]. intros e.
  assert (He : undoRedoManager e = None) by by apply after_all_none.
  unfold canUndo, canRedo, undo, redo, bind, gets. rewrite He. done.
Qed.
(** When the assignment goes through, [setFieldValue] records the root. *)
Lemma setFieldValue_manager (path : string) (update : Update) (e : engine)
    (current x root : value) (h1 h2 : heap) :
  Path.get inherited (store e) (state e) path = Ok current ->
  getUpdatedValue current update (store e) = (Ok x, h1) ->
  truthy (state e) = true ->
  Path.set inherited h1 (state e) path x = Ok (root, h2) ->
  undoRedoManager (snd (setFieldValue inherited props path update e))
  = option_map (UndoRedo.setState root) (undoRedoManager e).
Proof.
  intros Hget Hupdate Htruthy Hset.
  unfold setFieldValue. engine_run.
  engine_run_in Hget; engine_run_in Hupdate; engine_run_in Htruthy;
    engine_run_in Hset.
  rewrite Hget, Hupdate, Htruthy, Hset.
  match goal with
  | |- context [setState props (UValue root) ?e0] =>
      pose proof (setState_cells (UValue root) e0) as Hcells;
      cbv [getUpdatedValue ret] in Hcells;
      destruct (setState props (UValue root) e0) as [[[]|?|] e1]
  end; engine_run; engine_run_in Hcells; destruct Hcells as [_ Hm];
    exact Hm.
Qed.

Lemma undo_store (steps : option Z) (e : engine) :
  store (snd (undo props steps e)) = store e.
Proof.
  cbv [undo bind gets await suspend modify setUndoRedoManager].
  destruct (undoRedoManager e) as [m|] eqn:Hm; [|done].
  cbv [UndoRedo.undo].
  match goal with
  | |- context [setState props (UValue ?v) ?e0] =>
      destruct (setState_value_cells props v e0) as [Hstore _]
  end.
  by rewrite Hstore.
Qed.

End EngineLaws.

(** ** Numbers as keys of arrays *)

Section Keys.
Import Js.

Lemma append_cons (c : ascii) (s t : string) :
  String c s +:+ t = String c (s +:+ t).
Proof. done. Qed.

Lemma append_snoc (d : string) (c : ascii) (t : string) :
  (d +:+ String c EmptyString) +:+ t = d +:+ String c t.
Proof.
  induction d as [|a d IH]; [done|].
  rewrite !append_cons. by rewrite IH.
Qed.

Lemma all_digits_snoc (d : string) (c : ascii) :
  all_digits (d +:+ String c EmptyString) = all_digits d && is_digit c.
Proof.
  induction d as [|a d IH].
  - change (EmptyString +:+ String c EmptyString) with (String c EmptyString).
    simpl. by rewrite andb_true_r.
  - rewrite append_cons. simpl. rewrite IH. by rewrite andb_assoc.
Qed.

Lemma parse_digits_snoc (d : string) (c : ascii) :
  forall acc,
  parse_digits acc (d +:+ String c EmptyString)
  = (10 * parse_digits acc d + N.of_nat (nat_of_ascii c - 48))%N.
Proof.
  induction d as [|a d IH]; intros acc; [done|].
  rewrite append_cons. simpl. by rewrite IH.
Qed.

Lemma char_digit (k : N) :
  (k < 10)%N ->
  is_digit (pretty_N_char k) = true
  /\ N.of_nat (nat_of_ascii (pretty_N_char k) - 48) = k
  /\ (k <> 0%N -> pretty_N_char k <> "0"%char).
Proof.
  intros Hk.
  assert (Hcases : (k = 0 \/ k = 1 \/ k = 2 \/ k = 3 \/ k = 4 \/ k = 5
                    \/ k = 6 \/ k = 7 \/ k = 8 \/ k = 9)%N) by lia.
  repeat destruct Hcases as [->|Hcases]; try subst k;
    (split; [done|]; split; [done|]; intros Hne; done).
Qed.

(** The decimal form of a positive number: digits, the first of which is
    not a zero, that parse back to the number. *)
Lemma pretty_go_digits (n : N) :
  (0 < n)%N ->
  exists d,
    (forall t, pretty_N_go n t = d +:+ t)
    /\ all_digits d = true
    /\ match d with String c _ => c <> "0"%char | EmptyString => False end
    /\ parse_digits 0 d = n.
Proof.
  induction (N.lt_wf_0 n) as [n _ IH]. intros Hpos.
  assert (Hlt : (n `mod` 10 < 10)%N) by (apply N.mod_lt; lia).
  destruct (char_digit _ Hlt) as (Hdigit & Hvalue & Hlead).
  assert (Hn : n = (10 * (n `div` 10) + n `mod` 10)%N)
    by (apply N.div_mod; lia).
  destruct (decide (n `div` 10 = 0)%N) as [Hsmall|Hbig].
  - exists (String (pretty_N_char (n `mod` 10)) EmptyString).
    split; [|split; [|split]].
    + intros t. rewrite pretty_N_go_step by done.
      by rewrite Hsmall, pretty_N_go_0.
    + simpl. by rewrite Hdigit.
    + apply Hlead. lia.
    + simpl. rewrite Hvalue. lia.
  - destruct (IH (n `div` 10)%N) as (d & Hgo & Hall & Hfirst & Hparse).
    { apply N.div_lt; lia. }
    { lia. }
    exists (d +:+ String (pretty_N_char (n `mod` 10)) EmptyString).
    split; [|split; [|split]].
    + intros t. rewrite pretty_N_go_step by done.
      by rewrite Hgo, append_snoc.
    + by rewrite all_digits_snoc, Hall, Hdigit.
    + destruct d as [|c d]; [done|]. by rewrite append_cons.
    + rewrite parse_digits_snoc, Hparse, Hvalue. lia.
Qed.

(** The key that a number below [2^32 - 1] turns into is the array index of
    that number. *)
Lemma array_index_pretty_N (n : N) :
  (n < max_index)%N -> array_index (pretty n) = Some (N.to_nat n).
Proof.
  intros Hn. unfold pretty, pretty_N.
  destruct (decide (n = 0)%N) as [->|Hpos]; [done|].
  destruct (pretty_go_digits n) as (d & Hgo & Hall & Hfirst & Hparse);
    [lia|].
  rewrite Hgo.
  assert (d +:+ EmptyString = d) as ->.
  { clear. induction d as [|a d IH]; [done|].
    rewrite append_cons. by rewrite IH. }
  unfold array_index, digits_only, parseInt. rewrite Hall, Hparse.
  destruct d as [|c d]; [done|].
  assert (leading_zero (String c d) = false) as ->.
  { simpl. by destruct c as [[] [] [] [] [] [] [] []]. }
  simpl. apply N.ltb_lt in Hn. by rewrite Hn.
Qed.

Lemma to_key_index (n : Z) :
  0 <= n < 4294967295 ->
  exists key,
    Field.to_key (VNumber n) = Some key
    /\ array_index key = Some (Z.to_nat n).
Proof.
  intros Hn. exists (pretty n). split.
  - unfold Field.to_key.
    destruct (Z.ltb_spec (Z.abs n) (2 ^ 53)); [done|]. lia.
  - replace (pretty n) with (pretty (Z.to_N n)).
    + rewrite array_index_pretty_N by (unfold max_index; lia).
      f_equal. lia.
    + destruct n as [|p|p]; [done|done|lia].
Qed.

Lemma to_key_negative (n : Z) :
  - 2 ^ 53 < n < 0 ->
  exists key,
    Field.to_key (VNumber n) = Some key
    /\ key = pretty n
    /\ array_index key = None
    /\ String.eqb key "length" = false
    /\ String.eqb key "__proto__" = false.
Proof.
  intros Hn. exists (pretty n). split.
  - unfold Field.to_key.
    destruct (Z.ltb_spec (Z.abs n) (2 ^ 53)); [done|]. lia.
  - destruct n as [|p|p]; [lia|lia|]. by repeat split.
Qed.
End Keys.

(** ** Laws of the field views

    The operations of [useField] and [useArrayField] are followed into the
    state: what a statement reads after a call is [get(form.state(), path)],
    not the memo of the view. *)

Section FieldLaws.
Import Js Form Spec Laws.
Variable inherited : prototypes.
Variable props : Props.CreateFormProps.

Local Arguments get_prop : simpl never.
Local Arguments set_prop : simpl never.

Lemma get_prop_app (h ext : heap) (l : loc) (key : string) :
  is_Some (h !! l) ->
  get_prop inherited (h ++ ext) (VRef l) key
    = get_prop inherited h (VRef l) key.
Proof.
  intros [o Ho]. unfold get_prop.
  by rewrite (lookup_app_l_Some _ _ _ _ Ho), Ho.
Qed.

Lemma walk_app (h ext : heap) (keys : list string) :
  forall (cur : value) (locs : list loc),
  walk inherited h cur keys = Some locs ->
  walk inherited (h ++ ext) cur keys = Some locs
  /\ Forall (fun l => is_Some (h !! l)) locs.
Proof.
  induction keys as [|key keys IH]; intros cur locs Hwalk;
    destruct cur as [| | | | |l]; try done; simpl in *.
  - destruct (h !! l) as [o|] eqn:Ho; [|done].
    rewrite (lookup_app_l_Some _ _ _ _ Ho). simplify_eq.
    split; [done|]. constructor; [by eexists | constructor].
  - destruct (get_prop inherited h (VRef l) key) as [next| |] eqn:Hget;
      [|done..].
    assert (Hl : is_Some (h !! l)).
    { unfold get_prop in Hget. destruct (h !! l); [by eexists | done]. }
    rewrite get_prop_app, Hget by done.
    destruct (walk inherited h next keys) as [locs'|] eqn:Hrest; [|done].
    destruct (IH next locs' Hrest) as [-> Hvalid]. simpl in *. simplify_eq.
    split; [done|]. by constructor.
Qed.

Lemma all_canonical_agree (h h' : heap) (locs : list loc) :
  forall keys,
  Forall (fun l => h' !! l = h !! l) locs ->
  all_canonical h' locs keys = all_canonical h locs keys.
Proof.
  induction locs as [|l locs IH]; intros keys Hsame; [done|].
  inversion Hsame as [|? ? Hl Hrest]; subst.
  destruct keys as [|key keys]; [done|]. simpl.
  unfold canonical. rewrite Hl. by rewrite IH.
Qed.

Lemma settable_walk (h : heap) (root : value) (path : string) :
  settable inherited h root path = true ->
  path <> EmptyString
  /\ exists locs,
       walk inherited h root (removelast (Path.split path)) = Some locs
       /\ NoDup locs
       /\ all_canonical h locs (Path.split path) = true
       /\ assignable h (List.last locs 0%nat)
            (List.last (Path.split path) EmptyString) = true.
Proof.
  unfold settable. intros Hs.
  apply andb_true_iff in Hs as [Hpath Hs].
  split. { intros ->. done. }
  destruct (walk inherited h root _) as [locs|]; [|done].
  apply andb_true_iff in Hs as [Hs Hassign].
  apply andb_true_iff in Hs as [Hnodup Hcanon].
  exists locs. repeat split; try done. by apply bool_decide_eq_true in Hnodup.
Qed.

Lemma settable_truthy (h : heap) (root : value) (path : string) :
  settable inherited h root path = true -> truthy root = true.
Proof.
  intros Hs. apply settable_walk in Hs as (_ & locs & Hwalk & _).
  destruct root; try done.
  all: by destruct (removelast (Path.split path)).
Qed.

(** Assigning a freshly made object at a settable path: [get] finds the
    new object there, which the assignment has left as it was made. *)
Lemma set_fresh (h : heap) (root : value) (path : string) (o : object) :
  settable inherited h root path = true ->
  exists h',
    Path.set inherited (h ++ [o]) root path (VRef (length h)) = Ok (root, h')
    /\ Path.get inherited h' root path = Ok (VRef (length h))
    /\ h' !! length h = Some o.
Proof.
  intros Hs.
  apply settable_walk in Hs as (Hpath & locs & Hwalk & Hnodup & Hcanon
                                  & Hassign).
  destruct (walk_app h [o] _ _ _ Hwalk) as [Hwalk' Hvalid].
  assert (Hsame : Forall (fun l => (h ++ [o]) !! l = h !! l) locs).
  { eapply Forall_impl; [exact Hvalid|]. intros l [o' Ho'].
    by rewrite (lookup_app_l_Some _ _ _ _ Ho'). }
  destruct (walk_reduce _ _ _ _ _ Hwalk) as (before & target & -> & _ & Ht).
  assert (Htarget : (h ++ [o]) !! target = h !! target).
  { apply Forall_app in Hsame as [_ Hlast].
    by inversion Hlast. }
  destruct (get_set_canonical inherited (h ++ [o]) root path
              (VRef (length h)) (before ++ [target]))
    as (h' & Hset & Hget); try done.
  { by rewrite (all_canonical_agree h). }
  { rewrite last_last in *. unfold assignable, heap in *.
    by rewrite Htarget. }
  exists h'. split; [done|]. split; [done|].
  unfold Path.set in Hset.
  destruct (String.eqb path EmptyString) eqn:Hp.
  { apply String.eqb_eq in Hp. done. }
  destruct (walk_reduce _ _ _ _ _ Hwalk') as (before' & target' & Heq & Hred
                                                & _).
  apply app_inj_tail in Heq as [<- <-].
  rewrite Hred in Hset.
  destruct (set_prop (h ++ [o]) (VRef target) _ _) as [h2| |] eqn:Hprop;
    [|done..].
  simplify_eq.
  destruct (set_prop_ok _ _ _ _ _ Hprop) as (l & o1 & o2 & Hl & Ho1 & -> & _).
  simplify_eq. unfold heap in *.
  rewrite list_lookup_insert_ne.
  - by rewrite lookup_app_r, Nat.sub_diag.
  - destruct Ht as [o3 Ho3]. apply lookup_lt_Some in Ho3. lia.
Qed.

(** X21.  After [setValue] on a path that can be assigned, the state holds
    at the path what the update produced: [get(form.state(), path)] returns
    it.  The state is still the same root object, so the state signal has
    been written with the reference it held. *)
Theorem setValue_round_trip (path : string) (update : Update) (e : engine)
    (current x : value) (h1 : heap) :
  Path.get inherited (store e) (state e) path = Ok current ->
  getUpdatedValue current update (store e) = (Ok x, h1) ->
  settable inherited h1 (state e) path = true ->
  let e' := snd (Field.setValue inherited props path update e) in
  Path.get inherited (store e') (state e') path = Ok x /\ state e' = state e.
Proof.
  intros Hget Hupdate Hs.
  pose proof (settable_truthy _ _ _ Hs) as Htruthy.
  apply settable_walk in Hs as (Hpath & locs & Hwalk & Hnodup & Hcanon
                                  & Hassign).
  destruct (get_set_canonical inherited h1 (state e) path x locs)
    as (h' & Hset & Hread); try done.
  destruct (setFieldValue_cells inherited props path update e current x
              (state e) h1 h') as [Hstore Hstate]; try done.
  unfold Field.setValue. simpl.
  by rewrite Hstore, Hstate.
Qed.

(** An update that makes one new object and returns it. *)
Lemma setValue_fresh (path : string) (f : value -> M heap value)
    (e : engine) (prev : value) (o : object) :
  Path.get inherited (store e) (state e) path = Ok prev ->
  f prev (store e) = (Ok (VRef (length (store e))), store e ++ [o]) ->
  settable inherited (store e) (state e) path = true ->
  let e' := snd (await (Field.setValue inherited props path (UFunction f)) e)
  in
  Path.get inherited (store e') (state e') path = Ok (VRef (length (store e)))
  /\ store e' !! length (store e) = Some o.
Proof.
  intros Hget Hf Hs.
  pose proof (settable_truthy _ _ _ Hs) as Htruthy.
  destruct (set_fresh (store e) (state e) path o Hs)
    as (h' & Hset & Hread & Hnew).
  destruct (setValue_cells inherited props path (UFunction f) e prev
              (VRef (length (store e))) (state e) (store e ++ [o]) h')
    as [Hstore Hstate]; try done.
  cbv zeta. by rewrite Hstore, Hstate.
Qed.

Lemma array_at_fresh (path : string) (f : value -> M heap value)
    (e : engine) (prev : value) (elems : list (option value))
    (named : gmap string value) :
  Path.get inherited (store e) (state e) path = Ok prev ->
  f prev (store e)
    = (Ok (VRef (length (store e))), store e ++ [Arr elems named]) ->
  settable inherited (store e) (state e) path = true ->
  array_at inherited
    (snd (await (Field.setValue inherited props path (UFunction f)) e)) path
  = Some (elems, named).
Proof.
  intros Hget Hf Hs.
  destruct (setValue_fresh path f e prev _ Hget Hf Hs) as [Hvalue Hnew].
  unfold array_at. rewrite Hvalue. unfold heap, loc in *. by rewrite Hnew.
Qed.

Lemma array_at_value (e : engine) (path : string)
    (elems : list (option value)) (named : gmap string value) :
  array_at inherited e path = Some (elems, named) ->
  exists l,
    Path.get inherited (store e) (state e) path = Ok (VRef l)
    /\ store e !! l = Some (Arr elems named).
Proof.
  unfold array_at. intros Harr.
  destruct (Path.get inherited (store e) (state e) path)
    as [[| | | | |l]| |]; try done.
  exists l. split; [done|].
  destruct (store e !! l) as [[|elems' named']|]; by simplify_eq.
Qed.

(** X22.  [push] puts a new array at the path of the field in the state:
    the elements of the old one, holes read as [undefined], followed by the
    item.  Here and below the array is read with [get(form.state(), path)]. *)
Theorem push_appends (path : string) (item : Initializer) (e : engine)
    (elems : list (option value)) (named : gmap string value) (x : value) :
  array_at inherited e path = Some (elems, named) ->
  getInitialValue item (store e) = (Ok x, store e) ->
  settable inherited (store e) (state e) path = true ->
  array_at inherited (snd (Field.push inherited props path item e)) path
  = Some (dense (map (default VUndefined) elems ++ [x]), ∅).
Proof.
  intros Harr Hitem Hs.
  destruct (array_at_value _ _ _ _ Harr) as (l & Hvalue & Hl).
  unfold Field.push. eapply array_at_fresh; [exact Hvalue| |exact Hs].
  unfold bind, Field.spread, Field.new_array, alloc.
  by rewrite Hl, Hitem.
Qed.

Lemma filter_from_past (xs : list value) (n : Z) :
  forall i, n < i -> Field.filter_from i (VNumber n) (dense xs) = xs.
Proof.
  induction xs as [|x xs IH]; intros i Hi; [done|]. simpl.
  destruct (Z.eqb_spec i n); [lia|]. rewrite IH by lia. done.
Qed.

Lemma filter_from_at (xs : list value) (n : Z) :
  forall i, i <= n ->
  Field.filter_from i (VNumber n) (dense xs)
  = take (Z.to_nat (n - i)) xs ++ drop (S (Z.to_nat (n - i))) xs.
Proof.
  induction xs as [|x xs IH]; intros i Hi.
  - by rewrite take_nil, drop_nil.
  - simpl. destruct (Z.eqb_spec i n) as [->|Hne].
    + rewrite filter_from_past by lia.
      replace (Z.to_nat (n - n)) with 0%nat by lia. done.
    + rewrite IH by lia.
      replace (Z.to_nat (n - i)) with (S (Z.to_nat (n - (i + 1)))) by lia.
      done.
Qed.

Lemma filter_from_other (xs : list value) (index : value) :
  (forall n, index <> VNumber n) ->
  forall i, Field.filter_from i index (dense xs) = xs.
Proof.
  intros Hindex. induction xs as [|x xs IH]; intros i; [done|]. simpl.
  rewrite IH. destruct index as [| | |n| |]; simpl; try done.
  by destruct (Hindex n).
Qed.

(** X23.  [remove] puts at the path of the field, in the state, a new array
    without the element at the index; an index that is negative, past the
    end or not a number removes nothing. *)
Theorem remove_filters (path : string) (index : Initializer) (e : engine)
    (xs : list value) (named : gmap string value) (i : value) :
  array_at inherited e path = Some (dense xs, named) ->
  getInitialValue index (store e) = (Ok i, store e) ->
  settable inherited (store e) (state e) path = true ->
  array_at inherited (snd (Field.remove inherited props path index e)) path
  = Some (dense match i with
                | VNumber n =>
                    if 0 <=? n
                    then take (Z.to_nat n) xs ++ drop (S (Z.to_nat n)) xs
                    else xs
                | _ => xs
                end, ∅).
Proof.
  intros Harr Hindex Hs.
  destruct (array_at_value _ _ _ _ Harr) as (l & Hvalue & Hl).
  unfold Field.remove. eapply array_at_fresh; [exact Hvalue| |exact Hs].
  unfold bind, Field.filter_out, Field.new_array, alloc.
  rewrite Hindex, Hl. do 4 f_equal. unfold dense at 2. f_equal.
  destruct i as [| | |n| |]; try by apply filter_from_other.
  destruct (Z.leb_spec 0 n).
  - rewrite (filter_from_at xs n 0) by done. by rewrite Z.sub_0_r.
  - by apply filter_from_past.
Qed.

Lemma all2_pure (a b : Initializer) (h : heap) (x y : value) :
  getInitialValue a h = (Ok x, h) ->
  getInitialValue b h = (Ok y, h) ->
  Field.all2 (getInitialValue a) (getInitialValue b) h = (Ok (x, y), h).
Proof. intros Ha Hb. unfold Field.all2. by rewrite Ha, Hb. Qed.

(** X24.  [insert] puts at the path of the field, in the state, a new array
    with the item put in before the position the index stands for: a
    negative index counts from the end, and an index past either end is
    brought back to that end. *)
Theorem insert_splices (path : string) (index item : Initializer)
    (e : engine) (elems : list (option value)) (named : gmap string value)
    (n : Z) (x : value) :
  array_at inherited e path = Some (elems, named) ->
  getInitialValue index (store e) = (Ok (VNumber n), store e) ->
  getInitialValue item (store e) = (Ok x, store e) ->
  settable inherited (store e) (state e) path = true ->
  let xs := map (default VUndefined) elems in
  let len := Z.of_nat (length xs) in
  let k := Z.to_nat (if n <? 0 then Z.max (len + n) 0 else Z.min n len) in
  array_at inherited
    (snd (Field.insert inherited props path index item e)) path
  = Some (dense (take k xs ++ x :: drop k xs), ∅).
Proof.
  intros Harr Hindex Hitem Hs xs len k.
  destruct (array_at_value _ _ _ _ Harr) as (l & Hvalue & Hl).
  unfold Field.insert. eapply array_at_fresh; [exact Hvalue| |exact Hs].
  unfold bind. rewrite (all2_pure _ _ _ _ _ Hindex Hitem).
  unfold Field.spread, Field.to_integer, ret, Field.new_array, alloc.
  rewrite Hl. do 4 f_equal. unfold dense. f_equal.
  unfold Field.splice, UndoRedo.relative. simpl. fold xs. fold len.
  replace (Z.to_nat (_ + _)) with k; [done|].
  subst k len. destruct (Z.ltb_spec n 0); lia.
Qed.

Lemma splice_one (xs : list value) (n : nat) :
  Field.splice xs (Z.of_nat n) 1 []
  = (match xs !! n with Some x => [x] | None => [] end,
     take n xs ++ drop (S n) xs).
Proof.
  unfold Field.splice, UndoRedo.relative.
  destruct (Z.ltb_spec (Z.of_nat n) 0); [lia|]. simpl.
  destruct (xs !! n) as [x|] eqn:Hn.
  - pose proof (lookup_lt_Some _ _ _ Hn) as Hlt.
    replace (Z.to_nat (Z.of_nat n `min` Z.of_nat (length xs))) with n
      by lia.
    replace (Z.to_nat (_ `min` _)) with 1%nat by lia.
    replace (Z.to_nat (_ + _)) with (S n) by lia.
    f_equal. rewrite (drop_S _ _ _ Hn). done.
  - pose proof (lookup_ge_None_1 _ _ Hn) as Hge.
    replace (Z.to_nat (Z.of_nat n `min` Z.of_nat (length xs)))
      with (length xs) by lia.
    replace (Z.to_nat (_ `min` _)) with 0%nat by lia.
    replace (Z.to_nat (_ + _)) with (length xs) by lia.
    rewrite take_0, (take_ge xs n), (drop_ge xs (S n)) by lia.
    by rewrite take_drop, app_nil_r.
Qed.

Lemma splice_put (xs : list value) (m : nat) (x : value) :
  snd (Field.splice xs (Z.of_nat m) 0 [x])
  = take (m `min` length xs) xs ++ x :: drop (m `min` length xs) xs.
Proof.
  unfold Field.splice, UndoRedo.relative.
  destruct (Z.ltb_spec (Z.of_nat m) 0); [lia|]. simpl.
  replace (Z.to_nat (Z.of_nat m `min` Z.of_nat (length xs)))
    with (m `min` length xs)%nat by lia.
  replace (Z.to_nat (_ + _)) with (m `min` length xs)%nat by lia.
  done.
Qed.

(** X25.  [move] puts at the path of the field, in the state, a new array in
    which the element at [from] is taken out and put in before position [to]
    of what remains; when [from] is past the end nothing is taken out and
    [undefined] is put in.  A [from] inside the array only reorders the
    elements. *)
Theorem move_relocates (path : string) (from to : Initializer) (e : engine)
    (elems : list (option value)) (named : gmap string value) (n m : nat) :
  array_at inherited e path = Some (elems, named) ->
  getInitialValue from (store e) = (Ok (VNumber (Z.of_nat n)), store e) ->
  getInitialValue to (store e) = (Ok (VNumber (Z.of_nat m)), store e) ->
  settable inherited (store e) (state e) path = true ->
  let xs := map (default VUndefined) elems in
  let rest := take n xs ++ drop (S n) xs in
  let k := (m `min` length rest)%nat in
  let moved :=
    take k rest ++ default VUndefined (xs !! n) :: drop k rest in
  array_at inherited (snd (Field.move inherited props path from to e)) path
  = Some (dense moved, ∅)
  /\ ((n < length xs)%nat -> moved ≡ₚ xs).
Proof.
  intros Harr Hfrom Hto Hs xs rest k moved. split.
  - destruct (array_at_value _ _ _ _ Harr) as (l & Hvalue & Hl).
    unfold Field.move. eapply array_at_fresh; [exact Hvalue| |exact Hs].
    unfold bind. rewrite (all2_pure _ _ _ _ _ Hfrom Hto).
    unfold Field.spread, Field.to_integer, ret, Field.new_array, alloc.
    rewrite Hl. fold xs. rewrite splice_one. fold rest.
    rewrite splice_put. fold k.
    do 4 f_equal. unfold dense. do 3 f_equal.
    by destruct (xs !! n).
  - intros Hn. subst moved.
    destruct (lookup_lt_is_Some_2 xs n Hn) as [x Hx]. rewrite Hx. simpl.
    rewrite <- Permutation_middle, take_drop. subst rest.
    rewrite Permutation_middle. by rewrite take_drop_middle.
Qed.

Lemma insert_fresh (h : heap) (o o' : object) :
  <[length h := o']> (h ++ [o]) = h ++ [o'].
Proof.
  unfold heap in *. rewrite insert_app_r_alt by done.
  by rewrite Nat.sub_diag.
Qed.

Lemma lookup_fresh (h : heap) (o : object) :
  (h ++ [o]) !! length h = Some o.
Proof. unfold heap in *. by rewrite lookup_app_r, Nat.sub_diag. Qed.

Lemma write_at_fresh (h : heap) (elems : list (option value))
    (named : gmap string value) (n : Z) (x : value) :
  0 <= n < 4294967295 ->
  Field.write_at (VRef (length h)) (VNumber n) x (h ++ [Arr elems named])
  = (Ok tt, h ++ [Arr (write_elem elems (Z.to_nat n) x) named]).
Proof.
  intros Hn. destruct (to_key_index n Hn) as (key & Hkey & Hindex).
  unfold Field.write_at, set_prop.
  by rewrite Hkey, lookup_fresh, Hindex, insert_fresh.
Qed.

Lemma read_at_fresh (h : heap) (elems : list (option value))
    (named : gmap string value) (n : Z) :
  0 <= n < 4294967295 ->
  Field.read_at inherited (VRef (length h)) (VNumber n)
    (h ++ [Arr elems named])
  = (Ok (read_elem elems (Z.to_nat n)), h ++ [Arr elems named]).
Proof.
  intros Hn. destruct (to_key_index n Hn) as (key & Hkey & Hindex).
  unfold Field.read_at, get_prop.
  by rewrite Hkey, lookup_fresh, Hindex.
Qed.

(** X26.  [replace] puts at the path of the field, in the state, a new array
    with the item assigned at the index, a safe integer below [2^32 - 1]:
    inside the array the element is replaced, past the end the array grows
    and the gap is left as holes; a negative index replaces nothing and
    names a property of the new array instead. *)
Theorem replace_assigns (path : string) (index item : Initializer)
    (e : engine) (elems : list (option value)) (named : gmap string value)
    (n : Z) (x : value) :
  array_at inherited e path = Some (elems, named) ->
  getInitialValue index (store e) = (Ok (VNumber n), store e) ->
  getInitialValue item (store e) = (Ok x, store e) ->
  settable inherited (store e) (state e) path = true ->
  - 2 ^ 53 < n < 4294967295 ->
  let xs := map (default VUndefined) elems in
  array_at inherited
    (snd (Field.replace inherited props path index item e)) path
  = Some (if 0 <=? n then (write_elem (dense xs) (Z.to_nat n) x, ∅)
          else (dense xs, {[ pretty n := x ]})).
Proof.
  intros Harr Hindex Hitem Hs Hn xs.
  destruct (array_at_value _ _ _ _ Harr) as (l & Hvalue & Hl).
  unfold Field.replace.
  destruct (Z.leb_spec 0 n) as [Hpos|Hneg];
    (eapply array_at_fresh; [exact Hvalue| |exact Hs]);
    unfold bind; rewrite (all2_pure _ _ _ _ _ Hindex Hitem);
    unfold Field.spread, Field.new_array, alloc, ret;
    rewrite Hl; fold xs.
  - by rewrite write_at_fresh by lia.
  - destruct (to_key_negative n) as (key & Hkey & -> & Hkind & Hl1 & Hl2);
      [lia|].
    unfold Field.write_at, set_prop.
    rewrite Hkey, lookup_fresh, Hkind, Hl1, Hl2. simpl.
    by rewrite insert_fresh.
Qed.

(** X27.  [swap] puts at the path of the field, in the state, a new array in
    which the elements at the two indices have changed places. *)
Theorem swap_exchanges (path : string) (indexA indexB : Initializer)
    (e : engine) (elems : list (option value)) (named : gmap string value)
    (a b : nat) (xa xb : value) :
  array_at inherited e path = Some (elems, named) ->
  getInitialValue indexA (store e) = (Ok (VNumber (Z.of_nat a)), store e) ->
  getInitialValue indexB (store e) = (Ok (VNumber (Z.of_nat b)), store e) ->
  settable inherited (store e) (state e) path = true ->
  let xs := map (default VUndefined) elems in
  Z.of_nat (length xs) < 4294967295 ->
  xs !! a = Some xa ->
  xs !! b = Some xb ->
  array_at inherited
    (snd (Field.swap inherited props path indexA indexB e)) path
  = Some (dense (<[b := xa]> (<[a := xb]> xs)), ∅).
Proof.
  intros Harr HA HB Hs xs Hlen Ha Hb.
  pose proof (lookup_lt_Some _ _ _ Ha) as Hlta.
  pose proof (lookup_lt_Some _ _ _ Hb) as Hltb.
  destruct (array_at_value _ _ _ _ Harr) as (l & Hvalue & Hl).
  unfold Field.swap. eapply array_at_fresh; [exact Hvalue| |exact Hs].
  unfold bind. rewrite (all2_pure _ _ _ _ _ HA HB).
  unfold Field.spread, Field.new_array, alloc, ret.
  rewrite Hl. fold xs.
  rewrite !read_at_fresh by lia.
  rewrite !write_at_fresh by lia.
  rewrite !Nat2Z.id. do 4 f_equal.
  unfold read_elem, write_elem, dense.
  rewrite !list_lookup_fmap, Ha, Hb. simpl.
  rewrite !length_map.
  destruct (Nat.ltb_spec a (length xs)); [|lia].
  rewrite length_insert, length_map.
  destruct (Nat.ltb_spec b (length xs)); [|lia].
  by rewrite !list_fmap_insert.
Qed.

(** X28.  [undo] does not take back an assignment to a field: the assignment
    was made inside the state object, which every entry of the history
    refers to, so after [undo()] the state is that object again and still
    holds the assigned value at the path ([get(form.state(), path)] returns
    it). *)
Theorem undo_keeps_field_value (path : string) (update : Update)
    (e : engine) (current x : value) (h1 : heap) :
  in_sync e ->
  Path.get inherited (store e) (state e) path = Ok current ->
  getUpdatedValue current update (store e) = (Ok x, h1) ->
  settable inherited h1 (state e) path = true ->
  let e1 := snd (setFieldValue inherited props path update e) in
  let e2 := snd (undo props None e1) in
  Path.get inherited (store e1) (state e1) path = Ok x
  /\ state e2 = state e
  /\ Path.get inherited (store e2) (state e2) path = Ok x.
Proof.
  intros (m & Hm & Hb & Hmax & Htip & Hcur) Hget Hupdate Hs e1 e2.
  pose proof (settable_truthy _ _ _ Hs) as Htruthy.
  apply settable_walk in Hs as (Hpath & locs & Hwalk & Hnodup & Hcanon
                                  & Hassign).
  destruct (get_set_canonical inherited h1 (state e) path x locs)
    as (h' & Hset & Hread); try done.
  destruct (setFieldValue_cells inherited props path update e current x
              (state e) h1 h') as [Hstore Hstate]; try done.
  pose proof (setFieldValue_manager inherited props path update e current
                x (state e) h1 h' Hget Hupdate Htruthy Hset) as Hm1.
  rewrite Hm in Hm1. simpl in Hm1. fold e1 in Hstore, Hstate, Hm1.
  destruct (undo_cells props None e1 _ Hm1) as [Hs2 _]. fold e2 in Hs2.
  assert (Hstate2 : state e2 = state e).
  { rewrite Hs2, <- Hcur. by apply undo_after_duplicate. }
  assert (Hstore2 : store e2 = h').
  { subst e2. by rewrite (undo_store props). }
  by rewrite Hstore, Hstate, Hstore2, Hstate2.
Qed.
End FieldLaws.

(** ** Laws of the metadata *)

Section Metadata.
Import Js Form Spec.
Variable inherited : prototypes.
Variable props : Props.CreateFormProps.
Variable defaultFieldMetaState : value.

Ltac meta_run :=
  cbv [Meta.setFieldMetas Meta.setFieldMeta Meta.on_form Meta.await
       Meta.setFieldMetasInternal Meta.form Meta.fieldMetas
       detach bind modify ret gets try_finally
       suspend setFormStatus on_store
       setFieldStatuses _setFieldStatus fst snd
       store state undoRedoManager errors
       formStatus fieldStatuses
       initialState submitted snapshots].

(** X29.  [setFieldMetas] replaces the record by what the update gives and
    leaves the form alone; an update that fails is passed on and changes
    nothing. In both cases [settingMeta] keeps its value: the key that is
    set and cleared is [isSettingMeta]. *)
Theorem setFieldMetas_replaces (update : Update) (e : Meta.engine) :
  let result := Meta.setFieldMetas update e in
  let e' := snd result in
  state (Meta.form e') = state (Meta.form e)
  /\ undoRedoManager (Meta.form e') = undoRedoManager (Meta.form e)
  /\ errors (Meta.form e') = errors (Meta.form e)
  /\ formStatus (Meta.form e') !! "settingMeta"
     = formStatus (Meta.form e) !! "settingMeta"
  /\ formStatus (Meta.form e') !! "isSettingMeta" = Some false
  /\ match getUpdatedValue (Meta.fieldMetas e) update
             (store (Meta.form e)) with
     | (Ok next, h1) =>
         fst result = Ok tt /\ Meta.fieldMetas e' = next
         /\ store (Meta.form e') = h1
     | (Throw x, h1) =>
         fst result = Throw x
         /\ Meta.fieldMetas e' = Meta.fieldMetas e
         /\ store (Meta.form e') = h1
     | (Unsupported, _) => fst result = Unsupported
     end.
Proof.
  destruct e as [[h st man err fs fss ini sub snaps] metas].
  meta_run.
  destruct (getUpdatedValue metas update h) as [[next|x|] h1];
    repeat split; by simplify_map_eq.
Qed.

(** X30.  [setFieldMeta] hands the update the metadata of the path, or
    [defaultFieldMetaState] when the record has none, and puts the result
    under the path in a new record: the other paths read as before, and the
    record of before is left as it was. The form is not touched, and
    [isSettingMeta] of the path is false afterwards. *)
Theorem setFieldMeta_records (path : string) (update : Update)
    (e : Meta.engine) (l : loc) (metas : gmap string value)
    (found next : value) (h1 : heap) :
  Meta.fieldMetas e = VRef l ->
  get_prop inherited (store (Meta.form e)) (VRef l) path = Ok found ->
  getUpdatedValue
    (if Meta.nullish found then defaultFieldMetaState else found)
    update (store (Meta.form e)) = (Ok next, h1) ->
  h1 !! l = Some (Obj metas) ->
  let result :=
    Meta.setFieldMeta inherited defaultFieldMetaState path update e in
  let e' := snd result in
  fst result = Ok tt
  /\ Meta.fieldMetas e' = VRef (length h1)
  /\ store (Meta.form e') = h1 ++ [Obj (<[path := next]> metas)]
  /\ get_prop inherited (store (Meta.form e')) (Meta.fieldMetas e') path
     = Ok next
  /\ (forall other, other <> path ->
        get_prop inherited (store (Meta.form e')) (Meta.fieldMetas e') other
        = get_prop inherited h1 (VRef l) other)
  /\ store (Meta.form e') !! l = Some (Obj metas)
  /\ state (Meta.form e') = state (Meta.form e)
  /\ undoRedoManager (Meta.form e') = undoRedoManager (Meta.form e)
  /\ fieldStatuses (Meta.form e') !! path ≫= (.!! "isSettingMeta")
     = Some false.
Proof.
  destruct e as [[h st man err fs fss ini sub snaps] metas0].
  cbv [Meta.form Meta.fieldMetas store]. intros -> Hfound Hupdate Hl.
  meta_run. rewrite Hfound, Hupdate.
  unfold getUpdatedValue, Meta.with_meta, alloc. rewrite Hl.
  cbv beta iota.
  assert (Hnew : (h1 ++ [Obj (<[path := next]> metas)]) !! length h1
                 = Some (Obj (<[path := next]> metas))).
  { unfold heap in *. by rewrite lookup_app_r, Nat.sub_diag. }
  assert (Hold : (h1 ++ [Obj (<[path := next]> metas)]) !! l
                 = Some (Obj metas)).
  { unfold heap, loc in *. by rewrite (lookup_app_l_Some _ _ _ _ Hl). }
  do 3 (split; [done|]).
  split. { unfold get_prop. unfold heap, loc in *. rewrite Hnew.
           by rewrite lookup_insert_eq. }
  split. { intros other Hother. unfold get_prop. unfold heap, loc in *.
           rewrite Hnew, Hl. by rewrite lookup_insert_ne. }
  do 3 (split; [done|]).
  rewrite lookup_insert_eq. simpl. by rewrite lookup_insert_eq.
Qed.
End Metadata.

(** ** The laws on concrete forms *)

Section LawInstances.
Import Js Form Spec Laws.

Lemma setState_current_witness :
  let m := UndoRedo.createUndoRedoManager (VNumber 0) (Some 2) in
  1 <= UndoRedo.maxHistorySize m /\ bounded m /\
  let m' := UndoRedo.setState (VNumber 1) m in
  UndoRedo.getCurrentState m' = VNumber 1
  /\ UndoRedo.currentIndex (UndoRedo.state m')
     = Z.of_nat (length (UndoRedo.history (UndoRedo.state m'))) - 1
  /\ UndoRedo.canRedo None m' = false
  /\ UndoRedo.canUndo None m'
     = (2 <=? Z.of_nat (length (UndoRedo.history (UndoRedo.state m')))).
Proof.
  split; [simpl; lia|]. split; [unfold bounded; simpl; lia|].
  apply (setState_current (VNumber 1)); [simpl; lia|].
  unfold bounded; simpl; lia.
Defined.

Lemma setState_history_after_witness :
  let m := UndoRedo.createUndoRedoManager (VNumber 0) (Some 1) in
  bounded m /\
  let m' := UndoRedo.setState (VNumber 1) m in
  (UndoRedo.currentIndex (UndoRedo.state m) + 2 <= UndoRedo.maxHistorySize m
   -> UndoRedo.history (UndoRedo.state m')
      = take (Z.to_nat (UndoRedo.currentIndex (UndoRedo.state m) + 1))
             (UndoRedo.history (UndoRedo.state m)) ++ [VNumber 1])
  /\ (UndoRedo.currentIndex (UndoRedo.state m) + 1
      = UndoRedo.maxHistorySize m ->
      UndoRedo.history (UndoRedo.state m')
      = drop 1 (UndoRedo.history (UndoRedo.state m)) ++ [VNumber 1]
      /\ UndoRedo.currentIndex (UndoRedo.state m')
         = UndoRedo.currentIndex (UndoRedo.state m)
      /\ length (UndoRedo.history (UndoRedo.state m'))
         = length (UndoRedo.history (UndoRedo.state m))).
Proof.
  split; [unfold bounded; simpl; lia|].
  apply (setState_history_after (VNumber 1)). unfold bounded; simpl; lia.
Defined.

Lemma undo_redo_cancel_witness :
  let m := UndoRedo.setState (VNumber 1)
             (UndoRedo.createUndoRedoManager (VNumber 0) None) in
  bounded m /\ 0 <= UndoRedo.default_steps None /\
  (UndoRedo.canUndo None m = true ->
   fst (UndoRedo.undo None m)
   = UndoRedo.entry (UndoRedo.history (UndoRedo.state m))
       (UndoRedo.currentIndex (UndoRedo.state m)
        - UndoRedo.default_steps None)
   /\ UndoRedo.redo None (snd (UndoRedo.undo None m))
      = (UndoRedo.getCurrentState m, m))
  /\ (UndoRedo.canRedo None m = true ->
      fst (UndoRedo.redo None m)
      = UndoRedo.entry (UndoRedo.history (UndoRedo.state m))
          (UndoRedo.currentIndex (UndoRedo.state m)
           + UndoRedo.default_steps None)
      /\ UndoRedo.undo None (snd (UndoRedo.redo None m))
         = (UndoRedo.getCurrentState m, m)).
Proof.
  split; [unfold bounded; simpl; lia|]. split; [simpl; lia|].
  apply (undo_redo_cancel None); [unfold bounded; simpl; lia | simpl; lia].
Defined.

Lemma undo_undo_witness :
  let m := UndoRedo.setState (VNumber 2)
             (UndoRedo.setState (VNumber 1)
                (UndoRedo.createUndoRedoManager (VNumber 0) None)) in
  0 <= 1 /\ 0 <= 1 /\ 1 + 1 < 2 ^ 53
  /\ 0 <= UndoRedo.currentIndex (UndoRedo.state m) < 2 ^ 53
  /\ UndoRedo.undo (Some 1) (snd (UndoRedo.undo (Some 1) m))
     = UndoRedo.undo (Some (1 + 1)) m.
Proof.
  split; [lia|]. split; [lia|]. split; [lia|]. split; [simpl; lia|].
  apply (undo_undo 1 1); [lia | lia | lia | simpl; lia].
Defined.


Lemma set_touches_one_witness :
  let h' := [Obj (<["name" := VString "Alice"]>
                    {[ "name" := VString "John"; "age" := VNumber 0 ]})] in
  Path.set builtins person_store (VRef 0) "name" (VString "Alice")
  = Ok (VRef 0, h') /\
  (VRef 0 = VRef 0
   /\ length h' = length person_store
   /\ (forall v, isArray h' v = isArray person_store v)
   /\ exists target, forall l, l <> target -> h' !! l = person_store !! l).
Proof.
  split; [reflexivity|].
  apply (set_touches_one builtins person_store _ (VRef 0) (VRef 0) "name"
           (VString "Alice")).
  reflexivity.
Defined.

Lemma set_leaves_siblings_witness :
  let h' := [Obj (<["name" := VString "Alice"]>
                    {[ "name" := VString "John"; "age" := VNumber 0 ]})] in
  removelast (Path.split "age") = removelast (Path.split "name")
  /\ List.last (Path.split "age") EmptyString
     <> List.last (Path.split "name") EmptyString
  /\ walk builtins person_store (VRef 0) (removelast (Path.split "name"))
     = Some [0%nat]
  /\ NoDup [0%nat]
  /\ all_canonical person_store [0%nat] (Path.split "age") = true
  /\ assignable person_store (List.last [0%nat] 0%nat)
       (List.last (Path.split "age") EmptyString) = true
  /\ Path.set builtins person_store (VRef 0) "name" (VString "Alice")
     = Ok (VRef 0, h')
  /\ Path.get builtins h' (VRef 0) "age"
     = Path.get builtins person_store (VRef 0) "age".
Proof.
  assert (Hnodup : NoDup [0%nat]) by (apply NoDup_singleton).
  repeat (split; [first [reflexivity | done | exact Hnodup]|]).
  apply (set_leaves_siblings builtins person_store _ (VRef 0) "name" "age"
           (VString "Alice") [0%nat]);
    first [reflexivity | done | exact Hnodup].
Defined.

Lemma createForm_initial_witness :
  let p := form_of (VRef 0) in
  getInitialValue (Props.initialState p) person_store
  = (Ok (VRef 0), person_store) /\
  let e := createForm p person_store in
  state e = VRef 0 /\ initialState e = VRef 0 /\ store e = person_store
  /\ undoRedoManager e
     = Some (UndoRedo.createUndoRedoManager (VRef 0) (Props.undoLimit p))
  /\ canUndo None e = false /\ canRedo None e = false
  /\ formStatus e !! "initializing" = Some false
  /\ errors e
     = match Props.schema p person_store (VRef 0) with
       | Ok (ParseFailure flattened) => flattened
       | _ => errors (blank person_store)
       end.
Proof.
  split; [reflexivity|].
  apply (createForm_initial (form_of (VRef 0)) person_store person_store
           (VRef 0)).
  reflexivity.
Defined.

Lemma failed_initializer_witness :
  let p := {| Props.schema := accepting;
              Props.initialState :=
                IFunction (fun h => (Throw (Rejected VNull), h));
              Props.onSubmit := ignoring;
              Props.undoLimit := None |} in
  let actions := [ASetState (UValue (VRef 0)); AReset; AUndo None] in
  getInitialValue (Props.initialState p) person_store
  = (Throw (Rejected VNull), person_store) /\
  state (createForm p person_store) = VNull
  /\ formStatus (createForm p person_store) !! "initializing" = Some false
  /\ let e := after_all builtins p actions (createForm p person_store) in
     undoRedoManager e = None
     /\ canUndo None e = false /\ canRedo None e = false
     /\ undo p None e = (Ok tt, e)
     /\ redo p None e = (Ok tt, e).
Proof.
  split; [reflexivity|].
  apply (failed_initializer builtins _ person_store person_store
           (Rejected VNull)).
  reflexivity.
Defined.

Lemma engine_in_sync_witness :
  let p := form_of (VRef 0) in
  let actions :=
    [ASetState (UValue (VRef 0)); AUndo None; ARedo (Some 2); AReset;
     ASubmit; ASetFieldValue "name" (UValue (VString "Alice"))] in
  getInitialValue (Props.initialState p) person_store
  = (Ok (VRef 0), person_store)
  /\ (forall limit, Props.undoLimit p = Some limit -> 1 <= limit)
  /\ Forall forward actions
  /\ in_sync (after_all builtins p actions (createForm p person_store)).
Proof.
  assert (Hlimit : forall limit,
            Props.undoLimit (form_of (VRef 0)) = Some limit -> 1 <= limit)
    by (intros limit Hl; discriminate Hl).
  assert (Hall : Forall forward
            [ASetState (UValue (VRef 0)); AUndo None; ARedo (Some 2); AReset;
             ASubmit; ASetFieldValue "name" (UValue (VString "Alice"))])
    by (repeat constructor; simpl; lia).
  split; [reflexivity|]. split; [exact Hlimit|]. split; [exact Hall|].
  apply (engine_in_sync builtins (form_of (VRef 0)) person_store person_store
           (VRef 0)); [reflexivity | exact Hlimit | exact Hall].
Defined.

(** The fresh form on [person_store] is in step with its history. *)
Lemma person_in_sync :
  in_sync (createForm (form_of (VRef 0)) person_store).
Proof.
  exists (UndoRedo.createUndoRedoManager (VRef 0) None).
  split; [reflexivity|]. unfold bounded; simpl.
  repeat split; (lia || reflexivity).
Qed.

Lemma redo_is_idle_witness :
  let p := form_of (VRef 0) in
  let e := createForm p person_store in
  in_sync e /\ 0 <= UndoRedo.default_steps None /\
  state (snd (redo p None e)) = state e
  /\ (1 <= UndoRedo.default_steps None -> canRedo None e = false).
Proof.
  split; [exact person_in_sync|]. split; [simpl; lia|].
  apply (redo_is_idle (form_of (VRef 0)) None);
    [exact person_in_sync | simpl; lia].
Defined.


Lemma setState_undo_witness :
  let p := form_of (VRef 0) in
  let e := createForm p person_store in
  in_sync e
  /\ (forall m, undoRedoManager e = Some m ->
        2 <= UndoRedo.maxHistorySize m)
  /\ getUpdatedValue (state e) (UValue (VNumber 7)) (store e)
     = (Ok (VNumber 7), person_store)
  /\ let e1 := snd (setState p (UValue (VNumber 7)) e) in
     state e1 = VNumber 7 /\ canUndo None e1 = true
     /\ state (snd (undo p None e1)) = state e.
Proof.
  assert (Hroom : forall m,
            undoRedoManager (createForm (form_of (VRef 0)) person_store)
            = Some m -> 2 <= UndoRedo.maxHistorySize m).
  { intros m Hm. injection Hm as <-. simpl. lia. }
  split; [exact person_in_sync|]. split; [exact Hroom|].
  split; [reflexivity|].
  apply (setState_undo (form_of (VRef 0)) (UValue (VNumber 7)) _
           (VNumber 7) person_store);
    [exact person_in_sync | exact Hroom | reflexivity].
Defined.

Lemma setState_rejected_witness :
  let p := form_of (VRef 0) in
  let e := createForm p person_store in
  let update := UFunction (fun _ h => (Throw TypeError, h)) in
  getUpdatedValue (state e) update (store e) = (Throw TypeError, person_store)
  /\ let result := setState p update e in
     fst result = Throw TypeError
     /\ state (snd result) = state e
     /\ undoRedoManager (snd result) = undoRedoManager e
     /\ errors (snd result) = errors e
     /\ store (snd result) = person_store
     /\ formStatus (snd result) !! "isSettingState" = Some false
     /\ formStatus (snd result) !! "validating"
        = formStatus e !! "validating".
Proof.
  split; [reflexivity|].
  apply (setState_rejected (form_of (VRef 0))
           (UFunction (fun _ h => (Throw TypeError, h))) _ TypeError
           person_store).
  reflexivity.
Defined.

Lemma setState_validation_witness :
  let p := form_of (VRef 0) in
  let e := createForm p person_store in
  getUpdatedValue (state e) (UValue (VNumber 7)) (store e)
  = (Ok (VNumber 7), person_store)
  /\ let result := setState p (UValue (VNumber 7)) e in
     state (snd result) = VNumber 7
     /\ undoRedoManager (snd result)
        = option_map (UndoRedo.setState (VNumber 7)) (undoRedoManager e)
     /\ match Props.schema p person_store (VNumber 7) with
        | Ok (ParseSuccess _) =>
            fst result = Ok tt
            /\ errors (snd result) = errors e
            /\ formStatus (snd result) !! "validating" = Some false
        | Ok (ParseFailure flattened) =>
            fst result = Ok tt
            /\ errors (snd result) = flattened
            /\ formStatus (snd result) !! "validating" = Some false
        | Throw x =>
            fst result = Throw x
            /\ errors (snd result) = errors e
            /\ formStatus (snd result) !! "validating" = Some true
        | Unsupported => fst result = Unsupported
        end.
Proof.
  split; [reflexivity|].
  apply (setState_validation (form_of (VRef 0)) (UValue (VNumber 7)) _
           (VNumber 7) person_store).
  reflexivity.
Defined.

Lemma setFieldValue_falsy_state_witness :
  let p := form_of (VRef 0) in
  let e := blank person_store in
  truthy (state e) = false
  /\ let result :=
       setFieldValue builtins p "name" (UValue (VString "Alice")) e in
     state (snd result) = state e
     /\ undoRedoManager (snd result) = undoRedoManager e
     /\ errors (snd result) = errors e
     /\ (state e = VNull \/ state e = VUndefined ->
         fst result = Throw TypeError /\ store (snd result) = store e).
Proof.
  split; [reflexivity|].
  apply (setFieldValue_falsy_state builtins (form_of (VRef 0)) "name").
  reflexivity.
Defined.

Lemma reset_runs_initializer_witness :
  let p := form_of (VRef 0) in
  let e := snd (setState p (UValue (VNumber 7)) (createForm p person_store)) in
  getInitialValue (Props.initialState p) (store e)
  = (Ok (VRef 0), person_store)
  /\ let e' := snd (reset p e) in
     state e' = VRef 0
     /\ initialState e' = initialState e
     /\ undoRedoManager e'
        = option_map (UndoRedo.setState (VRef 0)) (undoRedoManager e).
Proof.
  split; [reflexivity|].
  apply (reset_runs_initializer (form_of (VRef 0)) _ (VRef 0) person_store).
  reflexivity.
Defined.

Lemma setValue_round_trip_witness :
  let p := form_of (VRef 0) in
  let e := createForm p person_store in
  Path.get builtins (store e) (state e) "name" = Ok (VString "John")
  /\ getUpdatedValue (VString "John") (UValue (VString "Alice")) (store e)
     = (Ok (VString "Alice"), person_store)
  /\ settable builtins person_store (state e) "name" = true
  /\ let e' :=
       snd (Field.setValue builtins p "name" (UValue (VString "Alice")) e) in
     Path.get builtins (store e') (state e') "name" = Ok (VString "Alice")
     /\ state e' = state e.
Proof.
  split; [reflexivity|]. split; [reflexivity|].
  split; [vm_compute; reflexivity|].
  apply (setValue_round_trip builtins (form_of (VRef 0)) "name"
           (UValue (VString "Alice")) _ (VString "John") (VString "Alice")
           person_store);
    [reflexivity | reflexivity | vm_compute; reflexivity].
Defined.

Lemma undo_keeps_field_value_witness :
  let p := form_of (VRef 0) in
  let e := createForm p person_store in
  in_sync e
  /\ Path.get builtins (store e) (state e) "name" = Ok (VString "John")
  /\ getUpdatedValue (VString "John") (UValue (VString "Alice")) (store e)
     = (Ok (VString "Alice"), person_store)
  /\ settable builtins person_store (state e) "name" = true
  /\ let e1 :=
       snd (setFieldValue builtins p "name" (UValue (VString "Alice")) e) in
     let e2 := snd (undo p None e1) in
     Path.get builtins (store e1) (state e1) "name" = Ok (VString "Alice")
     /\ state e2 = state e
     /\ Path.get builtins (store e2) (state e2) "name" = Ok (VString "Alice").
Proof.
  split; [exact person_in_sync|].
  split; [reflexivity|]. split; [reflexivity|].
  split; [vm_compute; reflexivity|].
  apply (undo_keeps_field_value builtins (form_of (VRef 0)) "name"
           (UValue (VString "Alice")) _ (VString "John") (VString "Alice")
           person_store);
    [exact person_in_sync | reflexivity | reflexivity
    | vm_compute; reflexivity].
Defined.

Lemma push_appends_witness :
  let p := form_of (VRef 0) in
  let e := createForm p items_store in
  let elems := [Some (VString "item1"); Some (VString "item2");
                Some (VString "item3")] in
  array_at builtins e "items" = Some (elems, ∅)
  /\ getInitialValue (IValue (VString "x")) (store e)
     = (Ok (VString "x"), store e)
  /\ settable builtins (store e) (state e) "items" = true
  /\ array_at builtins
       (snd (Field.push builtins p "items" (IValue (VString "x")) e)) "items"
     = Some (dense (map (default VUndefined) elems ++ [VString "x"]), ∅).
Proof.
  split; [vm_compute; reflexivity|]. split; [reflexivity|].
  split; [vm_compute; reflexivity|].
  apply (push_appends builtins (form_of (VRef 0)) "items"
           (IValue (VString "x")) _ _ ∅ (VString "x"));
    [vm_compute; reflexivity | reflexivity | vm_compute; reflexivity].
Defined.

Lemma remove_filters_witness :
  let p := form_of (VRef 0) in
  let e := createForm p items_store in
  let xs := [VString "item1"; VString "item2"; VString "item3"] in
  array_at builtins e "items" = Some (dense xs, ∅)
  /\ getInitialValue (IValue (VNumber 1)) (store e)
     = (Ok (VNumber 1), store e)
  /\ settable builtins (store e) (state e) "items" = true
  /\ array_at builtins
       (snd (Field.remove builtins p "items" (IValue (VNumber 1)) e)) "items"
     = Some (dense (if 0 <=? 1
                    then take (Z.to_nat 1) xs ++ drop (S (Z.to_nat 1)) xs
                    else xs), ∅).
Proof.
  split; [vm_compute; reflexivity|]. split; [reflexivity|].
  split; [vm_compute; reflexivity|].
  apply (remove_filters builtins (form_of (VRef 0)) "items"
           (IValue (VNumber 1)) _ _ ∅ (VNumber 1));
    [vm_compute; reflexivity | reflexivity | vm_compute; reflexivity].
Defined.

Lemma insert_splices_witness :
  let p := form_of (VRef 0) in
  let e := createForm p items_store in
  let elems := [Some (VString "item1"); Some (VString "item2");
                Some (VString "item3")] in
  array_at builtins e "items" = Some (elems, ∅)
  /\ getInitialValue (IValue (VNumber (-1))) (store e)
     = (Ok (VNumber (-1)), store e)
  /\ getInitialValue (IValue (VString "y")) (store e)
     = (Ok (VString "y"), store e)
  /\ settable builtins (store e) (state e) "items" = true
  /\ let xs := map (default VUndefined) elems in
     let len := Z.of_nat (length xs) in
     let k := Z.to_nat (if -1 <? 0 then Z.max (len + -1) 0
                        else Z.min (-1) len) in
     array_at builtins
       (snd (Field.insert builtins p "items" (IValue (VNumber (-1)))
               (IValue (VString "y")) e)) "items"
     = Some (dense (take k xs ++ VString "y" :: drop k xs), ∅).
Proof.
  split; [vm_compute; reflexivity|]. split; [reflexivity|].
  split; [reflexivity|]. split; [vm_compute; reflexivity|].
  apply (insert_splices builtins (form_of (VRef 0)) "items"
           (IValue (VNumber (-1))) (IValue (VString "y")) _ _ ∅ (-1)
           (VString "y"));
    [vm_compute; reflexivity | reflexivity | reflexivity
    | vm_compute; reflexivity].
Defined.

Lemma move_relocates_witness :
  let p := form_of (VRef 0) in
  let e := createForm p items_store in
  let elems := [Some (VString "item1"); Some (VString "item2");
                Some (VString "item3")] in
  array_at builtins e "items" = Some (elems, ∅)
  /\ getInitialValue (IValue (VNumber 5)) (store e)
     = (Ok (VNumber (Z.of_nat 5)), store e)
  /\ getInitialValue (IValue (VNumber 1)) (store e)
     = (Ok (VNumber (Z.of_nat 1)), store e)
  /\ settable builtins (store e) (state e) "items" = true
  /\ let xs := map (default VUndefined) elems in
     let rest := take 5 xs ++ drop 6 xs in
     let k := (1 `min` length rest)%nat in
     let moved :=
       take k rest ++ default VUndefined (xs !! 5%nat) :: drop k rest in
     array_at builtins
       (snd (Field.move builtins p "items" (IValue (VNumber 5))
               (IValue (VNumber 1)) e)) "items"
     = Some (dense moved, ∅)
     /\ ((5 < length xs)%nat -> moved ≡ₚ xs).
Proof.
  split; [vm_compute; reflexivity|]. split; [reflexivity|].
  split; [reflexivity|]. split; [vm_compute; reflexivity|].
  apply (move_relocates builtins (form_of (VRef 0)) "items"
           (IValue (VNumber 5)) (IValue (VNumber 1)) _ _ ∅ 5 1);
    [vm_compute; reflexivity | reflexivity | reflexivity
    | vm_compute; reflexivity].
Defined.

Lemma replace_assigns_witness :
  let p := form_of (VRef 0) in
  let e := createForm p items_store in
  let elems := [Some (VString "item1"); Some (VString "item2");
                Some (VString "item3")] in
  array_at builtins e "items" = Some (elems, ∅)
  /\ getInitialValue (IValue (VNumber 4)) (store e)
     = (Ok (VNumber 4), store e)
  /\ getInitialValue (IValue (VString "z")) (store e)
     = (Ok (VString "z"), store e)
  /\ settable builtins (store e) (state e) "items" = true
  /\ - 2 ^ 53 < 4 < 4294967295
  /\ let xs := map (default VUndefined) elems in
     array_at builtins
       (snd (Field.replace builtins p "items" (IValue (VNumber 4))
               (IValue (VString "z")) e)) "items"
     = Some (if 0 <=? 4
             then (write_elem (dense xs) (Z.to_nat 4) (VString "z"), ∅)
             else (dense xs, {[ pretty 4 := VString "z" ]})).
Proof.
  split; [vm_compute; reflexivity|]. split; [reflexivity|].
  split; [reflexivity|]. split; [vm_compute; reflexivity|].
  split; [lia|].
  apply (replace_assigns builtins (form_of (VRef 0)) "items"
           (IValue (VNumber 4)) (IValue (VString "z")) _ _ ∅ 4
           (VString "z"));
    [vm_compute; reflexivity | reflexivity | reflexivity
    | vm_compute; reflexivity | lia].
Defined.

Lemma swap_exchanges_witness :
  let p := form_of (VRef 0) in
  let e := createForm p items_store in
  let elems := [Some (VString "item1"); Some (VString "item2");
                Some (VString "item3")] in
  array_at builtins e "items" = Some (elems, ∅)
  /\ getInitialValue (IValue (VNumber 0)) (store e)
     = (Ok (VNumber (Z.of_nat 0)), store e)
  /\ getInitialValue (IValue (VNumber 2)) (store e)
     = (Ok (VNumber (Z.of_nat 2)), store e)
  /\ settable builtins (store e) (state e) "items" = true
  /\ let xs := map (default VUndefined) elems in
     Z.of_nat (length xs) < 4294967295
     /\ xs !! 0%nat = Some (VString "item1")
     /\ xs !! 2%nat = Some (VString "item3")
     /\ array_at builtins
          (snd (Field.swap builtins p "items" (IValue (VNumber 0))
                  (IValue (VNumber 2)) e)) "items"
        = Some (dense (<[2%nat := VString "item1"]>
                         (<[0%nat := VString "item3"]> xs)), ∅).
Proof.
  split; [vm_compute; reflexivity|]. split; [reflexivity|].
  split; [reflexivity|]. split; [vm_compute; reflexivity|].
  split; [simpl; lia|]. split; [reflexivity|]. split; [reflexivity|].
  apply (swap_exchanges builtins (form_of (VRef 0)) "items"
           (IValue (VNumber 0)) (IValue (VNumber 2)) _ _ ∅ 0 2);
    [vm_compute; reflexivity | reflexivity | reflexivity
    | vm_compute; reflexivity | simpl; lia | reflexivity | reflexivity].
Defined.

Lemma setFieldMeta_records_witness :
  let p := form_of (VRef 0) in
  let h := person_store
           ++ [Obj {[ "show" := VBool true; "touched" := VBool false ]}] in
  let e := Meta.createForm p h in
  let update := UFunction (fun prev h => (Ok prev, h)) in
  Meta.fieldMetas e = VRef 2
  /\ get_prop builtins (store (Meta.form e)) (VRef 2) "name" = Ok VUndefined
  /\ getUpdatedValue (if Meta.nullish VUndefined then VRef 1 else VUndefined)
       update (store (Meta.form e)) = (Ok (VRef 1), h ++ [Obj ∅])
  /\ (h ++ [Obj ∅]) !! 2%nat = Some (Obj ∅)
  /\ let result := Meta.setFieldMeta builtins (VRef 1) "name" update e in
     let e' := snd result in
     fst result = Ok tt
     /\ Meta.fieldMetas e' = VRef (length (h ++ [Obj ∅]))
     /\ store (Meta.form e')
        = (h ++ [Obj ∅]) ++ [Obj (<["name" := VRef 1]> ∅)]
     /\ get_prop builtins (store (Meta.form e')) (Meta.fieldMetas e') "name"
        = Ok (VRef 1)
     /\ (forall other, other <> "name"%string ->
           get_prop builtins (store (Meta.form e')) (Meta.fieldMetas e')
             other
           = get_prop builtins (h ++ [Obj ∅]) (VRef 2) other)
     /\ store (Meta.form e') !! 2%nat = Some (Obj ∅)
     /\ state (Meta.form e') = state (Meta.form e)
     /\ undoRedoManager (Meta.form e') = undoRedoManager (Meta.form e)
     /\ fieldStatuses (Meta.form e') !! "name" ≫= (.!! "isSettingMeta")
        = Some false.
Proof.
  split; [reflexivity|]. split; [vm_compute; reflexivity|].
  split; [reflexivity|]. split; [reflexivity|].
  apply (setFieldMeta_records builtins (VRef 1) "name"
           (UFunction (fun prev h => (Ok prev, h))) _ 2%nat ∅ VUndefined
           (VRef 1));
    [reflexivity | vm_compute; reflexivity | reflexivity | reflexivity].
Defined.
End LawInstances.
